(** * The Video component of cloudinary-react: derivation of the video tag

    A shallow embedding of [src/components/Video/Video.js].  The component
    derives, from the ambient context and its own props, the attributes of a
    [<video>] element and either a list of [<source>] children (one per
    requested format) or a single [src] attribute.

    JavaScript objects used as option mappings are finite maps from property
    names to values.  The two structured props of the element are typed as
    the component documents them: [sourceTypes] is a format token or an
    array of format tokens, [sourceTransformation] maps a format token to an
    options object.  The collaborators that live outside this file of the
    repository (cloudinary-core, the base component, [extractCloudinaryProps])
    are an interface the development is parametric in. *)

From stdpp Require Import gmap strings list fin_maps.

Set Warnings "-register-all".

(** ** Values and option objects *)

(** The values an option can hold.  The derivation never looks inside one;
    the only test made on a value is [=== undefined]. *)
Inductive value :=
| VUndefined
| VNull
| VBool (b : bool)
| VNum (n : Z)
| VStr (s : string)
| VArr (l : list value)
| VObj (o : gmap string value).

(** An options object: [{ key: value, ... }]. *)
Abbreviation options := (gmap string value).

Definition is_undefined (v : value) : bool :=
  match v with VUndefined => true | _ => false end.

(** Property read [o[key]]: a missing property reads as [undefined]. *)
Definition get (o : options) (key : string) : value :=
  default VUndefined (o !! key).

(** ** [Util.defaults] of cloudinary-core

    [Util.defaults(destination, ...sources)] belongs to the cloudinary-core
    package: it assigns values from the sources where they are not defined in
    the destination, and once a value is set it does not change:
<<
    sources.reduce(function(dest, source) {
      for (key in source) {
        value = source[key];
        if (dest[key] === void 0) { dest[key] = value; }
      }
      return dest;
    }, destination)
>>
    [assignDefault] is the body of the loop, [defaultsFrom] the loop over one
    source and [defaults] the reduction over the sources. *)
Definition assignDefault (key : string) (v : value) (dest : options) : options :=
  if is_undefined (get dest key) then <[key := v]> dest else dest.

Definition defaultsFrom (dest source : options) : options :=
  foldl (λ dest key, assignDefault key (get source key) dest)
        dest (map_to_list source).*1.

Definition defaults (destination : options) (sources : list options) : options :=
  foldl defaultsFrom destination sources.

(** ** Collaborators *)

(** The result of [extractCloudinaryProps(options)]. *)
Record ExtractedProps := {
  cloudinaryProps : options;
  cloudinaryReactProps : options;
  nonCloudinaryProps : options;
}.

(** What the component imports: cloudinary-core ([Cloudinary], [Util]), the
    base class [CloudinaryComponent] and [extractCloudinaryProps]. *)
Class Services := {
  (** a configured cloudinary-core object, [Cloudinary.new(options)] *)
  Cld : Type;
  Cloudinary_new : options → Cld;
  (** [cld.url(publicId, options)] *)
  url : Cld → value → options → string;
  (** [cld.videoTag(publicId, options).attributes()] *)
  videoTag_attributes : Cld → value → options → options;
  (** [Util.withSnakeCaseKeys], [Util.withCamelCaseKeys] *)
  withSnakeCaseKeys : options → options;
  withCamelCaseKeys : options → options;
  (** [Cloudinary.DEFAULT_VIDEO_PARAMS.source_types] *)
  DEFAULT_VIDEO_PARAMS_source_types : list string;
  (** [CloudinaryComponent.normalizeOptions(...options)] *)
  normalizeOptions : list options → options;
  (** [extractCloudinaryProps(options)] *)
  extractCloudinaryProps : options → ExtractedProps;
  (** [this.getTransformation(extendedProps)] of the base class *)
  getTransformation : options → options;
}.

(** ** Props, context and the component instance *)

(** The [sourceTypes] prop: [Util.isArray] tells the two shapes apart. *)
Inductive SourceTypes :=
| TypeList (sourceTypes : list string)
| TypeScalar (sourceType : string).

(** An object of props as a caller writes it, or as the context holds it:
    every prop may be missing. *)
Record Config := {
  cfg_sourceTypes : option SourceTypes;
  cfg_sourceTransformation : option (gmap string options);
  cfg_rest : options;
}.

(** [this.props], and the merged props: React fills in [Video.defaultProps]
    when it creates the element, so [sourceTypes] is always there. *)
Record Props := {
  sourceTypes : SourceTypes;
  sourceTransformation : option (gmap string options);
  rest : options;
}.

(** The shape of [Video.defaultProps]: a default for [sourceTypes] only. *)
Record DefaultProps := {
  default_sourceTypes : SourceTypes;
}.

(** The component instance: the context and props the derivation reads, and
    the fields the lifecycle methods write ([this.element], [this.videoNode],
    [this.player]), as opaque handles. *)
Record Video := {
  context : Config;
  props : Props;
  element : option nat;
  videoNode : option nat;
  player : option nat;
}.

(** A [<source key=.. src=.. type=.. />] element. *)
Record source := Source {
  key : string;
  src : string;
  type : string;
}.

(** The result of [getVideoTagProps]: [sources] is [null] ([None]) or an
    array of [<source>] elements. *)
Record VideoTagProps := {
  sources : option (list source);
  tagAttributes : options;
}.

(** What React renders for [{sources}]: nothing for [null]. *)
Definition renderedSources (r : VideoTagProps) : list source :=
  default [] (sources r).

(** ** The component *)

Section Video.
Context `{Services}.

Definition mimeType : string := "video".

(** [Video.defaultProps = { sourceTypes: Cloudinary.DEFAULT_VIDEO_PARAMS.source_types }] *)
Definition defaultProps : DefaultProps := {|
  default_sourceTypes := TypeList DEFAULT_VIDEO_PARAMS_source_types;
|}.

(** React's resolution of [defaultProps] when the element is created: a prop
    the caller left undefined takes its default. *)
Definition resolveDefaultProps (written : Config) : Props := {|
  sourceTypes := default (default_sourceTypes defaultProps) (cfg_sourceTypes written);
  sourceTransformation := cfg_sourceTransformation written;
  rest := cfg_rest written;
|}.

(** [{ ...this.getContext(), ...this.props }]: the later spread wins. *)
Definition getMergedProps (this : Video) : Props := {|
  sourceTypes := sourceTypes (props this);
  sourceTransformation :=
    sourceTransformation (props this) ∪ cfg_sourceTransformation (context this);
  rest := rest (props this) ∪ cfg_rest (context this);
|}.

(** [sourceTransformations[sourceType] || {}]: the override registered for
    the token, an object, or the empty object when there is none. *)
Definition generateVideoUrl (cld : Cld) (publicId : value)
    (childTransformations : options)
    (sourceTransformations : gmap string options) (sourceType : string) : string :=
  let sourceTransformation := default ∅ (sourceTransformations !! sourceType) in
  let urlOptions :=
    defaults ∅ [sourceTransformation; childTransformations;
                {[ "resource_type" := VStr "video"; "format" := VStr sourceType ]}] in
  url cld publicId urlOptions.

(** The [urlOptions] of [generateVideoUrl], as a function of its arguments. *)
Definition urlOptions (childTransformations : options)
    (sourceTransformations : gmap string options) (sourceType : string) : options :=
  defaults ∅ [default ∅ (sourceTransformations !! sourceType); childTransformations;
              {[ "resource_type" := VStr "video"; "format" := VStr sourceType ]}].

Definition generateSources (cld : Cld) (publicId : value)
    (childTransformations : options)
    (sourceTransformations : gmap string options)
    (sourceTypes : list string) : list source :=
  map (λ sourceType,
    let src := generateVideoUrl cld publicId childTransformations
                 sourceTransformations sourceType in
    let mimeType :=
      mimeType +:+ "/" +:+ (if decide (sourceType = "ogv") then "ogg" else sourceType) in
    Source mimeType src mimeType) sourceTypes.

(** The rest of the destructuring pattern of [getVideoTagProps]: every
    property but the six named ones. *)
Definition restOptions (merged : options) : options :=
  delete "innerRef" (delete "publicId" (delete "fallback" (delete "children"
    (delete "sourceTypes" (delete "sourceTransformation" merged))))).

(** [tagAttributes = { ...Util.withCamelCaseKeys(tagAttributes),
    ...nonCloudinaryProps }] *)
Definition reconcile (tagAttributes nonCloudinaryProps : options) : options :=
  nonCloudinaryProps ∪ withCamelCaseKeys tagAttributes.

Definition getVideoTagProps (this : Video) : VideoTagProps :=
  let merged := getMergedProps this in
  let publicId := get (rest merged) "publicId" in
  let children := get (rest merged) "children" in
  let sourceTypes := sourceTypes merged in
  let sourceTransformation := default ∅ (sourceTransformation merged) in
  let options := restOptions (rest merged) in
  let options := normalizeOptions [options; ∅] in
  let extracted := extractCloudinaryProps options in
  let options := cloudinaryReactProps extracted ∪ cloudinaryProps extracted in
  let snakeCaseOptions := withSnakeCaseKeys options in
  let cld := Cloudinary_new snakeCaseOptions in
  let tagAttributes := videoTag_attributes cld publicId options in
  let tagAttributes := reconcile tagAttributes (nonCloudinaryProps extracted) in
  let childTransformations := getTransformation (<["children" := children]> options) in
  match sourceTypes with
  | TypeList sourceTypes =>
      {| sources := Some (generateSources cld publicId childTransformations
                            sourceTransformation sourceTypes);
         tagAttributes := tagAttributes |}
  | TypeScalar sourceType =>
      {| sources := None;
         tagAttributes :=
           <["src" := VStr (generateVideoUrl cld publicId childTransformations
                              sourceTransformation sourceType)]> tagAttributes |}
  end.

(** *** Names for the values bound in the body of [getVideoTagProps]

    The properties of the derivation speak of the configured cloudinary
    object, the reconciled attributes and the resolved URLs; these are the
    [const]s and [let]s of the body, as functions of the instance. *)

Definition videoPublicId (this : Video) : value :=
  get (rest (getMergedProps this)) "publicId".

Definition videoSourceTransformation (this : Video) : gmap string options :=
  default ∅ (sourceTransformation (getMergedProps this)).

Definition videoExtracted (this : Video) : ExtractedProps :=
  extractCloudinaryProps (normalizeOptions [restOptions (rest (getMergedProps this)); ∅]).

Definition videoOptions (this : Video) : options :=
  cloudinaryReactProps (videoExtracted this) ∪ cloudinaryProps (videoExtracted this).

Definition videoCld (this : Video) : Cld :=
  Cloudinary_new (withSnakeCaseKeys (videoOptions this)).

(** [tagAttributes] after line 111--114, before the branch on [sourceTypes]. *)
Definition videoReconciled (this : Video) : options :=
  reconcile (videoTag_attributes (videoCld this) (videoPublicId this) (videoOptions this))
            (nonCloudinaryProps (videoExtracted this)).

Definition videoChildTransformations (this : Video) : options :=
  getTransformation
    (<["children" := get (rest (getMergedProps this)) "children"]> (videoOptions this)).

(** The URL the derivation resolves for a format token. *)
Definition videoUrl (this : Video) (sourceType : string) : string :=
  generateVideoUrl (videoCld this) (videoPublicId this)
    (videoChildTransformations this) (videoSourceTransformation this) sourceType.

(** *** The per-format options in the words of the specification

    "Layering, in precedence order low to high: format-specific
    source-transformation override (if any is registered for this exact
    format token, else empty), the element-level transformation list, then
    two forced fields, resource kind fixed to video and the explicit format
    token."  The union of maps keeps the left value on a collision. *)
Definition layeredOptions (childTransformations : options)
    (sourceTransformations : gmap string options) (sourceType : string) : options :=
  ({[ "resource_type" := VStr "video"; "format" := VStr sourceType ]} : options)
    ∪ (childTransformations ∪ default ∅ (sourceTransformations !! sourceType)).

End Video.

(** The value [Util.defaults] leaves at a key, from the value [d] the
    destination holds there and the value [s] the source holds there. *)
Definition firstDefined (d s : option value) : option value :=
  match d with
  | Some v => if is_undefined v then match s with Some _ => s | None => d end else d
  | None => s
  end.

(** ** Rendering and lifecycle

    [render], the lifecycle methods and [reloadVideo].  The calls they make
    to the world outside the component (the media element, video.js) are
    recorded in the order they are made. *)

(** The two functions [render] gives as [ref]: [this.attachRef] and
    [(node) => (this.videoNode = node)]. *)
Inductive refCallback :=
| AttachRef
| SetVideoNode.

(** A prop of a rendered element: a value, or a [ref] callback. *)
Inductive attribute :=
| AttrValue (v : value)
| AttrRef (r : refCallback).

(** The [<video>] element of [render]: its props, and its three children
    [{sources}], [{fallback}] and [{children}]. *)
Record VideoElement := {
  video_props : gmap string attribute;
  video_sources : option (list source);
  video_fallback : value;
  video_children : value;
}.

(** [<div data-vjs-player> <video ...> ... </video> </div>] *)
Record Rendered := {
  div_props : gmap string attribute;
  div_video : VideoElement;
}.

Module Player.

(** The [videoJsOptions] of [componentDidMount].  The playback rates
    0.5, 1, 1.25, 1.5 and 2 are written as fractions. *)
Record Options := {
  autoplay : bool;
  playbackRates : list QArith_base.Q;
  width : Z;
  height : Z;
  controls : bool;
  sources : option (list source);
}.

End Player.

(** A call to the outside: [this.element.current.load()],
    [videojs(this.videoNode, videoJsOptions, onPlayerReady)] and
    [this.player.dispose()]. *)
Inductive call :=
| LoadCall (current : nat)
| VideojsCall (videoNode : option nat) (videoJsOptions : Player.Options)
| DisposeCall (player : nat).

(** [videojs]: the player it returns may depend on the calls made so far. *)
Class VideoJs := {
  videojs : list call → option nat → Player.Options → nat;
}.

(** The instance and the calls made so far. *)
Record World := {
  instance : Video;
  calls : list call;
}.

(** What React does with a mounted element of the component. *)
Inductive lifecycle :=
| RefCallback (node : option nat)   (* the [ref] of the rendered [<video>] is called *)
| DidMount
| DidUpdate
| WillUnmount.

Section Lifecycle.
Context `{Services} `{VideoJs}.

(** [if (this.element && this.element.current) this.element.current.load()] *)
Definition reloadVideo (w : World) : World :=
  match element (instance w) with
  | Some current => {| instance := instance w; calls := calls w ++ [LoadCall current] |}
  | None => w
  end.

Definition componentDidMount (w : World) : World :=
  let this := instance w in
  let sources := sources (getVideoTagProps this) in
  let videoJsOptions := {|
    Player.autoplay := false;
    Player.playbackRates :=
      [QArith_base.Qmake 1 2; QArith_base.Qmake 1 1; QArith_base.Qmake 5 4;
       QArith_base.Qmake 3 2; QArith_base.Qmake 2 1];
    Player.width := 720;
    Player.height := 300;
    Player.controls := true;
    Player.sources := sources;
  |} in
  let player := videojs (calls w) (videoNode this) videoJsOptions in
  {| instance := {| context := context this; props := props this;
                    element := element this; videoNode := videoNode this;
                    player := Some player |};
     calls := calls w ++ [VideojsCall (videoNode this) videoJsOptions] |}.

Definition componentDidUpdate (w : World) : World := reloadVideo w.

(** [if (this.player) this.player.dispose()] *)
Definition componentWillUnmount (w : World) : World :=
  match player (instance w) with
  | Some player => {| instance := instance w; calls := calls w ++ [DisposeCall player] |}
  | None => w
  end.

(** The second [ref] of [render]: [(node) => (this.videoNode = node)]. *)
Definition setVideoNode (node : option nat) (w : World) : World :=
  let this := instance w in
  {| instance := {| context := context this; props := props this;
                    element := element this; videoNode := node;
                    player := player this |};
     calls := calls w |}.

(** The props of [<video>] are [{ ref: this.attachRef, ...tagAttributes,
    ref: (node) => ..., className: "video-js" }]: a later entry replaces an
    earlier one of the same name. *)
Definition render (this : Video) : Rendered :=
  let fallback := get (rest (props this)) "fallback" in
  let children := get (rest (props this)) "children" in
  let r := getVideoTagProps this in
  {| div_props := {[ "data-vjs-player" := AttrValue (VBool true) ]};
     div_video := {|
       video_props :=
         <["className" := AttrValue (VStr "video-js")]>
           (<["ref" := AttrRef SetVideoNode]>
              ((AttrValue <$> tagAttributes r) ∪ {[ "ref" := AttrRef AttachRef ]}));
       video_sources := sources r;
       video_fallback := fallback;
       video_children := children;
     |} |}.

(** One step of the life of a mounted element, and a sequence of them. *)
Definition step (w : World) (l : lifecycle) : World :=
  match l with
  | RefCallback node => setVideoNode node w
  | DidMount => componentDidMount w
  | DidUpdate => componentDidUpdate w
  | WillUnmount => componentWillUnmount w
  end.

Definition run (ls : list lifecycle) (w : World) : World := foldl step w ls.

(** The player [p] was returned by a call of [videojs] recorded in [cs];
    [later] is what was called after it. *)
Definition createdIn (p : nat) (cs later : list call) : Prop :=
  ∃ history videoNode videoJsOptions,
    cs = history ++ VideojsCall videoNode videoJsOptions :: later
    ∧ p = videojs history videoNode videoJsOptions.

(** The player the instance holds was created by a recorded call, and every
    recorded disposal comes after the creation of the player it disposes of. *)
Definition playersCreated (w : World) : Prop :=
  (∀ p, player (instance w) = Some p → ∃ later, createdIn p (calls w) later)
  ∧ (∀ p, DisposeCall p ∈ calls w →
       ∃ later, createdIn p (calls w) later ∧ DisposeCall p ∈ later).

End Lifecycle.

(** What happens to a mounted element: React delivers new props and a new
    context, which it stores in [this.props] and [this.context] before it
    calls [componentDidUpdate], or one step of the lifecycle is taken. *)
Inductive update :=
| Receive (nextProps : Props) (nextContext : Config)
| Method (l : lifecycle).

Section Updates.
Context `{Services} `{VideoJs}.

Definition receive (nextProps : Props) (nextContext : Config) (w : World) : World :=
  let this := instance w in
  {| instance := {| context := nextContext; props := nextProps;
                    element := element this; videoNode := videoNode this;
                    player := player this |};
     calls := calls w |}.

Definition updateStep (w : World) (u : update) : World :=
  match u with
  | Receive nextProps nextContext => receive nextProps nextContext w
  | Method l => step w l
  end.

Definition life (us : list update) (w : World) : World := foldl updateStep w us.

(** The props and the context React delivered last, [current] if it
    delivered none. *)
Definition delivered (us : list update) (current : Props * Config) : Props * Config :=
  foldl (λ current u,
           match u with
           | Receive nextProps nextContext => (nextProps, nextContext)
           | Method _ => current
           end) current us.

(** An element as React creates it, before any step. *)
Definition fresh (p : Props) (c : Config) : Video :=
  {| context := c; props := p; element := None; videoNode := None; player := None |}.

End Updates.

(** ** Objects in a store

    [generateVideoUrl] once more, with objects held in a store and passed by
    reference, and [Util.defaults] writing its destination in place as the
    library does.  A store is a list of cells; a reference is an index in it;
    a new object goes at the end. *)

Module InPlace.

Abbreviation loc := nat.

Inductive cell :=
| CObj (o : options)                  (* an options object *)
| CTable (t : gmap string loc).       (* format token ↦ reference to an options object *)

Abbreviation heap := (list cell).

(** A computation on the store; [None] is a read through a reference that
    does not point to an object of the expected kind. *)
Definition M (A : Type) : Type := heap → option (A * heap).

Definition ret {A} (a : A) : M A := λ h, Some (a, h).

Definition bind {A B} (m : M A) (f : A → M B) : M B :=
  λ h, match m h with Some (a, h') => f a h' | None => None end.

Notation "'do' x <- m ; k" := (bind m (λ x, k))
  (at level 10, x name, m at level 100, k at level 200).

(** [{ ... }]: a new object. *)
Definition alloc (c : cell) : M loc := λ h, Some (length h, h ++ [c]).

Definition readObj (l : loc) : M options :=
  λ h, match h !! l with Some (CObj o) => Some (o, h) | _ => None end.

Definition readTable (l : loc) : M (gmap string loc) :=
  λ h, match h !! l with Some (CTable t) => Some (t, h) | _ => None end.

(** [o[key]] *)
Definition getProp (l : loc) (key : string) : M value :=
  do o <- readObj l ; ret (get o key).

(** [o[key] = v] *)
Definition setProp (l : loc) (key : string) (v : value) : M unit :=
  λ h, match h !! l with
       | Some (CObj o) => Some (tt, <[l := CObj (<[key := v]> o)]> h)
       | _ => None
       end.

(** [for (key in source) { ... }], over the keys listed when the loop starts. *)
Fixpoint forIn (keys : list string) (body : string → M unit) : M unit :=
  match keys with
  | [] => ret tt
  | key :: keys => (do _ <- body key ; forIn keys body)
  end.

Definition defaultsFrom (dest source : loc) : M unit :=
  do o <- readObj source ;
  forIn (map_to_list o).*1 (λ key,
    do v <- getProp source key ;
    do d <- getProp dest key ;
    if is_undefined d then setProp dest key v else ret tt).

(** [sources.reduce(..., destination)]; the destination is returned. *)
Fixpoint defaults (destination : loc) (sources : list loc) : M loc :=
  match sources with
  | [] => ret destination
  | source :: sources =>
      (do _ <- defaultsFrom destination source ; defaults destination sources)
  end.

Section WithServices.
Context `{Services}.

Definition generateVideoUrl (cld : Cld) (publicId : value)
    (childTransformations sourceTransformations : loc)
    (sourceType : string) : M string :=
  do t <- readTable sourceTransformations ;
  do sourceTransformation <-
    match t !! sourceType with
    | Some l => ret l
    | None => alloc (CObj ∅)
    end ;
  do destination <- alloc (CObj ∅) ;
  do forced <- alloc (CObj {[ "resource_type" := VStr "video";
                           "format" := VStr sourceType ]}) ;
  do urlOptions <- defaults destination
                  [sourceTransformation; childTransformations; forced] ;
  do o <- readObj urlOptions ;
  ret (url cld publicId o).

End WithServices.

(** [sourceTypes.map(...)], one call of the resolver after the other on the
    same store. *)
Fixpoint mapM {A B} (f : A → M B) (l : list A) : M (list B) :=
  match l with
  | [] => ret []
  | x :: l => (do y <- f x ; do ys <- mapM f l ; ret (y :: ys))
  end.

Section SourcesWithServices.
Context `{Services}.

Definition generateSources (cld : Cld) (publicId : value)
    (childTransformations sourceTransformations : loc)
    (sourceTypes : list string) : M (list source) :=
  mapM (λ sourceType,
    do src <- generateVideoUrl cld publicId childTransformations
                sourceTransformations sourceType ;
    let mimeType :=
      mimeType +:+ "/" +:+ (if decide (sourceType = "ogv") then "ogg" else sourceType) in
    ret (Source mimeType src mimeType)) sourceTypes.

End SourcesWithServices.

(** The contents of the object a reference points to. *)
Definition objectAt (h : heap) (l : loc) : option options :=
  match h !! l with Some (CObj o) => Some o | _ => None end.

(** The override table as a mapping from tokens to option objects. *)
Definition tableContents (h : heap) (t : gmap string loc) : gmap string options :=
  omap (objectAt h) t.

(** *** The derivation on a store

    [getVideoTagProps] with the objects it is given held in the store: the
    objects of the context and of the props, and the override tables.  The
    objects the body creates and later writes or hands to the resolver are
    allocated: the default [{}] of [sourceTransformation], the
    [tagAttributes] of the second spread, which the branch of the single
    token writes, and the [childTransformations].  The collaborators are
    functions of the contents of their arguments. *)

(** [this.props] and the context, with their objects by reference. *)
Record PropsRef := {
  p_sourceTypes : SourceTypes;
  p_sourceTransformation : option loc;
  p_rest : loc;
}.

Record ConfigRef := {
  c_sourceTypes : option SourceTypes;
  c_sourceTransformation : option loc;
  c_rest : loc;
}.

Record Instance := {
  i_context : ConfigRef;
  i_props : PropsRef;
  i_element : option nat;
  i_videoNode : option nat;
  i_player : option nat;
}.

(** The object of the spread [{ ...this.getContext(), ...this.props }]; it is
    destructured at once and never written. *)
Record Merged := {
  m_sourceTypes : SourceTypes;
  m_sourceTransformation : option loc;
  m_rest : options;
}.

(** [{ sources, tagAttributes }], the attributes by reference. *)
Record Result := {
  r_sources : option (list source);
  r_tagAttributes : loc;
}.

Section DerivationWithServices.
Context `{Services}.

Definition getMergedProps (this : Instance) : M Merged :=
  do context <- readObj (c_rest (i_context this)) ;
  do props <- readObj (p_rest (i_props this)) ;
  ret {| m_sourceTypes := p_sourceTypes (i_props this);
         m_sourceTransformation :=
           p_sourceTransformation (i_props this)
             ∪ c_sourceTransformation (i_context this);
         m_rest := props ∪ context |}.

Definition getVideoTagProps (this : Instance) : M Result :=
  do merged <- getMergedProps this ;
  let publicId := get (m_rest merged) "publicId" in
  let children := get (m_rest merged) "children" in
  let sourceTypes := m_sourceTypes merged in
  do sourceTransformation <-
    match m_sourceTransformation merged with
    | Some l => ret l
    | None => alloc (CTable ∅)
    end ;
  let options := restOptions (m_rest merged) in
  let options := normalizeOptions [options; ∅] in
  let extracted := extractCloudinaryProps options in
  let options := cloudinaryReactProps extracted ∪ cloudinaryProps extracted in
  let snakeCaseOptions := withSnakeCaseKeys options in
  let cld := Cloudinary_new snakeCaseOptions in
  let attributes := videoTag_attributes cld publicId options in
  do tagAttributes <-
    alloc (CObj (reconcile attributes (nonCloudinaryProps extracted))) ;
  do childTransformations <-
    alloc (CObj (getTransformation (<["children" := children]> options))) ;
  match sourceTypes with
  | TypeList sourceTypes =>
      do sources <- generateSources cld publicId childTransformations
                      sourceTransformation sourceTypes ;
      ret {| r_sources := Some sources; r_tagAttributes := tagAttributes |}
  | TypeScalar sourceType =>
      do src <- generateVideoUrl cld publicId childTransformations
                  sourceTransformation sourceType ;
      do _ <- setProp tagAttributes "src" (VStr src) ;
      ret {| r_sources := None; r_tagAttributes := tagAttributes |}
  end.

End DerivationWithServices.

(** A reference to an override table whose contents are the mapping [t]. *)
Definition tableAt (h : heap) (l : option loc) (t : option (gmap string options)) : Prop :=
  match l, t with
  | Some l, Some t =>
      ∃ table, h !! l = Some (CTable table)
             ∧ (∀ k l', table !! k = Some l' → is_Some (objectAt h l'))
             ∧ tableContents h table = t
  | None, None => True
  | _, _ => False
  end.

(** The instance [this] in the store [h] has the context and the props of
    [v]. *)
Definition represents (h : heap) (this : Instance) (v : Video) : Prop :=
  objectAt h (c_rest (i_context this)) = Some (cfg_rest (context v))
  ∧ objectAt h (p_rest (i_props this)) = Some (rest (props v))
  ∧ p_sourceTypes (i_props this) = sourceTypes (props v)
  ∧ tableAt h (p_sourceTransformation (i_props this)) (sourceTransformation (props v))
  ∧ tableAt h (c_sourceTransformation (i_context this))
      (cfg_sourceTransformation (context v)).

End InPlace.

(** ** A stand-in for the collaborators

    A small instance of the interface, to run the derivation on examples.
    The option names of the examples are single lower-case words, which the
    snake-case and the camel-case dialect write alike. *)

Module Fake.

Definition text (v : value) : string :=
  match v with VStr s => s | _ => "" end.

Definition defined (v : value) : bool :=
  match v with VUndefined | VNull => false | _ => true end.

Definition cloudinaryKeys : list string := ["width"; "height"; "crop"].

Definition fileUrl (publicId : value) (o : options) : string :=
  "https://res.cloudinary.com/demo/" +:+ text (get o "resource_type")
    +:+ "/upload/" +:+ text publicId +:+ "." +:+ text (get o "format").

#[export] Instance services : Services := {|
  Cld := options;
  Cloudinary_new o := o;
  url _ publicId o := fileUrl publicId o;
  videoTag_attributes _ publicId o :=
    <["poster" := VStr (fileUrl publicId {[ "resource_type" := VStr "video";
                                             "format" := VStr "jpg" ]})]>
      (filter (λ kv, kv.1 ∈ ["width"; "height"]) o);
  withSnakeCaseKeys o := o;
  withCamelCaseKeys o := o;
  DEFAULT_VIDEO_PARAMS_source_types := ["webm"; "mp4"; "ogv"];
  normalizeOptions os :=
    foldl (λ left right, filter (λ kv, defined kv.2 = true) right ∪ left) ∅ os;
  extractCloudinaryProps o := {|
    cloudinaryProps := filter (λ kv, kv.1 ∈ cloudinaryKeys) o;
    cloudinaryReactProps := ∅;
    nonCloudinaryProps := filter (λ kv, kv.1 ∉ cloudinaryKeys) o;
  |};
  getTransformation o := filter (λ kv, kv.1 ∈ cloudinaryKeys) o;
|}.

Definition emptyContext : Config :=
  {| cfg_sourceTypes := None; cfg_sourceTransformation := None; cfg_rest := ∅ |}.

(** [<Video publicId="sample" sourceTypes={["mp4", "ogv"]} width={300}
    controls poster="mine.jpg" />] *)
Definition listProps : Props := {|
  sourceTypes := TypeList ["mp4"; "ogv"];
  sourceTransformation := None;
  rest := {[ "publicId" := VStr "sample"; "width" := VNum 300;
             "controls" := VBool true; "poster" := VStr "mine.jpg" ]};
|}.

Definition listVideo : Video := {|
  context := emptyContext; props := listProps;
  element := None; videoNode := None; player := None;
|}.

(** The same element once mounted: the lifecycle has set its fields. *)
Definition mountedListVideo : Video := {|
  context := emptyContext; props := listProps;
  element := Some 1; videoNode := Some 1; player := Some 2;
|}.

(** [<Video publicId="sample" sourceTypes={[]} />] *)
Definition emptyListVideo : Video := {|
  context := emptyContext;
  props := {| sourceTypes := TypeList []; sourceTransformation := None;
              rest := {[ "publicId" := VStr "sample" ]} |};
  element := None; videoNode := None; player := None;
|}.

(** [<Video publicId="sample" />] as written, under a context that holds
    [sourceTypes: "mp4"]. *)
Definition writtenWithoutSourceTypes : Config := {|
  cfg_sourceTypes := None; cfg_sourceTransformation := None;
  cfg_rest := {[ "publicId" := VStr "sample" ]};
|}.

Definition scalarContext : Config := {|
  cfg_sourceTypes := Some (TypeScalar "mp4"); cfg_sourceTransformation := None;
  cfg_rest := {[ "width" := VNum 640 ]};
|}.

(** [<Video publicId="sample" sourceTypes="webm" src="mine.webm" />] *)
Definition scalarVideo : Video := {|
  context := emptyContext;
  props := {| sourceTypes := TypeScalar "webm";
              sourceTransformation := None;
              rest := {[ "publicId" := VStr "sample"; "src" := VStr "mine.webm" ]} |};
  element := None; videoNode := None; player := None;
|}.

(** A store of the caller: the override table [{ mp4: { quality: 70 } }],
    its one override object, and the element-level transformation
    [{ width: 300 }]. *)
Definition store : InPlace.heap :=
  [ InPlace.CTable {[ "mp4" := 1 ]};
    InPlace.CObj {[ "quality" := VNum 70 ]};
    InPlace.CObj {[ "width" := VNum 300 ]} ].

(** A stand-in for video.js: the player is numbered by the calls made
    before it. *)
#[export] Instance videoJs : VideoJs := {|
  videojs history _ _ := length history;
|}.

(** The world of [listVideo] before React has mounted it. *)
Definition listWorld : World := {| instance := listVideo; calls := [] |}.

(** [<Video publicId="sample" sourceTypes={["ogv", "ogg"]} />]: two tokens
    with the same media type. *)
Definition oggVideo : Video := {|
  context := emptyContext;
  props := {| sourceTypes := TypeList ["ogv"; "ogg"]; sourceTransformation := None;
              rest := {[ "publicId" := VStr "sample" ]} |};
  element := None; videoNode := None; player := None;
|}.

(** [listVideo] with [sourceTypes="mp4"] in the place of the list. *)
Definition mp4Video : Video := {|
  context := emptyContext;
  props := {| sourceTypes := TypeScalar "mp4";
              sourceTransformation := sourceTransformation listProps;
              rest := rest listProps |};
  element := None; videoNode := None; player := None;
|}.

(** [listVideo] with [innerRef] and [fallback] props. *)
Definition listVideoWithRef : Video := {|
  context := emptyContext;
  props := {| sourceTypes := sourceTypes listProps;
              sourceTransformation := sourceTransformation listProps;
              rest := <["innerRef" := VStr "ref"]>
                        (<["fallback" := VStr "Cannot play video"]> (rest listProps)) |};
  element := None; videoNode := None; player := None;
|}.

(** [listVideo] with [className="mine"]. *)
Definition classVideo : Video := {|
  context := emptyContext;
  props := {| sourceTypes := sourceTypes listProps;
              sourceTransformation := sourceTransformation listProps;
              rest := <["className" := VStr "mine"]> (rest listProps) |};
  element := None; videoNode := None; player := None;
|}.

(** [listVideo] under a context that holds [sourceTypes] and
    [sourceTransformation], and with a [sourceTransformation] of its own. *)
Definition overrideProps : Props := {|
  sourceTypes := TypeList ["mp4"; "ogv"];
  sourceTransformation := Some {[ "mp4" := {[ "quality" := VNum 70 ]} ]};
  rest := {[ "publicId" := VStr "sample" ]};
|}.

Definition overrideVideo : Video := {|
  context := emptyContext; props := overrideProps;
  element := None; videoNode := None; player := None;
|}.

Definition overrideVideoInContext : Video := {|
  context := {| cfg_sourceTypes := Some (TypeScalar "webm");
                cfg_sourceTransformation := Some {[ "ogv" := {[ "quality" := VNum 10 ]} ]};
                cfg_rest := ∅ |};
  props := overrideProps;
  element := None; videoNode := None; player := None;
|}.

(** A store that holds [overrideVideoInContext]: the object of the context,
    the object of the props, the table of the props with its override, and
    the table of the context with its override. *)
Definition videoStore : InPlace.heap :=
  [ InPlace.CObj ∅;
    InPlace.CObj {[ "publicId" := VStr "sample" ]};
    InPlace.CTable {[ "mp4" := 3 ]};
    InPlace.CObj {[ "quality" := VNum 70 ]};
    InPlace.CTable {[ "ogv" := 5 ]};
    InPlace.CObj {[ "quality" := VNum 10 ]} ].

Definition videoInstance : InPlace.Instance := {|
  InPlace.i_context := {| InPlace.c_sourceTypes := Some (TypeScalar "webm");
                          InPlace.c_sourceTransformation := Some 4;
                          InPlace.c_rest := 0 |};
  InPlace.i_props := {| InPlace.p_sourceTypes := TypeList ["mp4"; "ogv"];
                        InPlace.p_sourceTransformation := Some 2;
                        InPlace.p_rest := 1 |};
  InPlace.i_element := None; InPlace.i_videoNode := None; InPlace.i_player := None;
|}.

End Fake.

(** * Properties *)

(** ** [Util.defaults] *)

Lemma firstDefined_None_l (s : option value) : firstDefined None s = s.
Proof. reflexivity. Qed.

Lemma firstDefined_None_r (d : option value) : firstDefined d None = d.
Proof. destruct d as [v|]; [|done]. simpl. by destruct (is_undefined v). Qed.

Lemma assignDefault_lookup (key : string) (v : value) (dest : options) (k : string) :
  assignDefault key v dest !! k =
    if decide (k = key) then firstDefined (dest !! k) (Some v) else dest !! k.
Proof.
  unfold assignDefault, get. case_decide as Hk.
  - subst k. destruct (dest !! key) as [d|] eqn:Hd; simpl.
    + destruct (is_undefined d); [by rewrite lookup_insert_eq | done].
    + by rewrite lookup_insert_eq.
  - destruct (is_undefined _); [by rewrite lookup_insert_ne | done].
Qed.

(** The loop over a list of distinct keys. *)
Lemma forKeys_lookup (source : options) (keys : list string) (dest : options) (k : string) :
  NoDup keys →
  foldl (λ dest key, assignDefault key (get source key) dest) dest keys !! k =
    if decide (k ∈ keys) then firstDefined (dest !! k) (Some (get source k))
    else dest !! k.
Proof.
  revert dest. induction keys as [|key keys IH]; intros dest Hnd.
  - rewrite decide_False by apply not_elem_of_nil. done.
  - apply NoDup_cons in Hnd as [Hkey Hnd]. cbn [foldl].
    rewrite IH by done. rewrite assignDefault_lookup.
    destruct (decide (k = key)) as [->|Hne].
    + rewrite decide_False by done.
      rewrite decide_True by apply list_elem_of_here. done.
    + destruct (decide (k ∈ keys)) as [Hin|Hnin].
      * rewrite decide_True by (by apply list_elem_of_further). done.
      * rewrite decide_False; [done|].
        intros [?|?]%elem_of_cons; done.
Qed.

Lemma defaultsFrom_lookup (dest source : options) (k : string) :
  defaultsFrom dest source !! k = firstDefined (dest !! k) (source !! k).
Proof.
  unfold defaultsFrom. rewrite forKeys_lookup by apply NoDup_fst_map_to_list.
  case_decide as Hin.
  - apply list_elem_of_fmap in Hin as [[k' v] [-> Hin]].
    apply elem_of_map_to_list in Hin. simpl. unfold get. by rewrite Hin.
  - assert (source !! k = None) as ->.
    { apply eq_None_not_Some. intros [v Hv]. apply Hin.
      apply list_elem_of_fmap. exists (k, v). split; [done|].
      by apply elem_of_map_to_list. }
    by rewrite firstDefined_None_r.
Qed.

Lemma urlOptions_lookup (childTransformations : options)
    (sourceTransformations : gmap string options) (sourceType k : string) :
  urlOptions childTransformations sourceTransformations sourceType !! k =
    firstDefined
      (firstDefined (default ∅ (sourceTransformations !! sourceType) !! k)
                    (childTransformations !! k))
      (({[ "resource_type" := VStr "video"; "format" := VStr sourceType ]} : options) !! k).
Proof.
  unfold urlOptions, defaults. simpl.
  rewrite !defaultsFrom_lookup. by rewrite lookup_empty.
Qed.

(** ** The URL resolver: [generateVideoUrl] *)

Section Resolver.
Context `{Services}.

Lemma urlOptions_get (childTransformations : options)
    (sourceTransformations : gmap string options) (sourceType k : string) :
  get (urlOptions childTransformations sourceTransformations sourceType) k =
    let override := get (default ∅ (sourceTransformations !! sourceType)) k in
    let child := get childTransformations k in
    if is_undefined override
    then if is_undefined child
         then get {[ "resource_type" := VStr "video"; "format" := VStr sourceType ]} k
         else child
    else override.
Proof.
  unfold get at 1. rewrite urlOptions_lookup. unfold get.
  generalize (({[ "resource_type" := VStr "video"; "format" := VStr sourceType ]}
                 : options) !! k).
  intros f.
  destruct (default ∅ (sourceTransformations !! sourceType) !! k) as [o|];
    destruct (childTransformations !! k) as [c|]; destruct f as [f|]; simpl;
    try destruct o; try destruct c; done.
Qed.

(** C1, as the code has it: the resolver hands [cld.url] the publicId and
    the options [Util.defaults] builds, and returns its result as it is.
    Since [Util.defaults] never replaces a value that is already defined,
    the precedence runs from the first source to the last: at every key the
    format-specific override registered for this exact token (the empty
    object if there is none) comes first, then the element-level
    transformation, and the two fields [resource_type = "video"] and
    [format = token] are defaults that fill a key only where neither of the
    others defines it. *)
Theorem generateVideoUrl_precedence (cld : Cld) (publicId : value)
    (childTransformations : options)
    (sourceTransformations : gmap string options) (sourceType : string) :
  let override := default ∅ (sourceTransformations !! sourceType) in
  let fields : options :=
    {[ "resource_type" := VStr "video"; "format" := VStr sourceType ]} in
  let merged := urlOptions childTransformations sourceTransformations sourceType in
  generateVideoUrl cld publicId childTransformations sourceTransformations sourceType
    = url cld publicId merged
  ∧ (∀ k, merged !! k =
          firstDefined (firstDefined (override !! k) (childTransformations !! k))
                       (fields !! k))
  ∧ (∀ k, get merged k =
          if is_undefined (get override k)
          then if is_undefined (get childTransformations k)
               then get fields k
               else get childTransformations k
          else get override k).
Proof.
  intros override fields merged. split; [reflexivity|]. split.
  - intros k. apply urlOptions_lookup.
  - intros k. apply urlOptions_get.
Qed.

End Resolver.

(** C1, as the specification states it, fails: with the override
    [{ mp4: { format: "webm" } }] registered for the token ["mp4"], the
    options passed to [cld.url] carry [format = "webm"], where the layering
    of the specification lets the forced field win and carries
    [format = "mp4"]; the resolved URLs differ. *)
Lemma generateVideoUrl_override_wins :
  let overrides : gmap string options := {[ "mp4" := {[ "format" := VStr "webm" ]} ]} in
  urlOptions ∅ overrides "mp4" !! "format" = Some (VStr "webm")
  ∧ layeredOptions ∅ overrides "mp4" !! "format" = Some (VStr "mp4")
  ∧ urlOptions ∅ overrides "mp4" ≠ layeredOptions ∅ overrides "mp4"
  ∧ generateVideoUrl (H := Fake.services) ∅ (VStr "sample") ∅ overrides "mp4"
      ≠ url (Services := Fake.services) ∅ (VStr "sample")
          (layeredOptions ∅ overrides "mp4").
Proof.
  cbv zeta. split; [by vm_compute|]. split; [by vm_compute|]. split.
  - intros Heq.
    assert (urlOptions ∅ {[ "mp4" := ({[ "format" := VStr "webm" ]} : options) ]} "mp4"
              !! "format" = Some (VStr "webm")) as Hcode by (by vm_compute).
    rewrite Heq in Hcode. vm_compute in Hcode. congruence.
  - intros Heq. vm_compute in Heq. congruence.
Qed.

(** ** The source set builder: [generateSources] *)

Section Sources.
Context `{Services}.

Lemma generateSources_length (cld : Cld) (publicId : value)
    (childTransformations : options)
    (sourceTransformations : gmap string options) (sourceTypes : list string) :
  length (generateSources cld publicId childTransformations
            sourceTransformations sourceTypes) = length sourceTypes.
Proof. unfold generateSources. apply length_map. Qed.

Lemma generateSources_lookup (cld : Cld) (publicId : value)
    (childTransformations : options)
    (sourceTransformations : gmap string options) (sourceTypes : list string)
    (i : nat) (sourceType : string) :
  sourceTypes !! i = Some sourceType →
  ∃ s, generateSources cld publicId childTransformations
         sourceTransformations sourceTypes !! i = Some s
     ∧ src s = generateVideoUrl cld publicId childTransformations
                 sourceTransformations sourceType
     ∧ key s = type s
     ∧ type s = "video/" +:+ (if decide (sourceType = "ogv") then "ogg" else sourceType).
Proof.
  intros Hi. unfold generateSources.
  change (map ?f ?l) with (f <$> l). rewrite list_lookup_fmap, Hi.
  eexists. split; [reflexivity|]. done.
Qed.

(** C3: the media type of the source emitted for a format token is
    ["video/ogg"] when the token is exactly ["ogv"], and ["video/"] followed
    by the token itself for every other token; no token is rejected, a
    source is emitted whatever the token is. *)
Theorem generateSources_mediaType (cld : Cld) (publicId : value)
    (childTransformations : options)
    (sourceTransformations : gmap string options) (sourceTypes : list string)
    (i : nat) (sourceType : string) :
  sourceTypes !! i = Some sourceType →
  ∃ s, generateSources cld publicId childTransformations
         sourceTransformations sourceTypes !! i = Some s
     ∧ (sourceType = "ogv" → type s = "video/ogg")
     ∧ (sourceType ≠ "ogv" → type s = "video/" +:+ sourceType).
Proof.
  intros Hi.
  destruct (generateSources_lookup cld publicId childTransformations
              sourceTransformations sourceTypes i sourceType Hi)
    as (s & Hs & _ & _ & Htype).
  exists s. split; [done|]. rewrite Htype.
  split; intros Ht; [by rewrite decide_True | by rewrite decide_False].
Qed.

End Sources.

Lemma generateSources_mediaType_witness :
  ["mp4"; "ogv"] !! 1 = Some "ogv"
  ∧ ∃ s, generateSources (H := Fake.services) ∅ (VStr "sample") ∅ ∅ ["mp4"; "ogv"] !! 1
           = Some s
       ∧ ("ogv" = "ogv" → type s = "video/ogg")
       ∧ ("ogv" ≠ "ogv" → type s = "video/" +:+ "ogv").
Proof.
  split; [reflexivity|].
  apply (generateSources_mediaType (H := Fake.services)
           ∅ (VStr "sample") ∅ ∅ ["mp4"; "ogv"] 1 "ogv").
  reflexivity.
Defined.

(** ** The derivation: [getVideoTagProps] *)

Section Derivation.
Context `{Services}.

(** The body of [getVideoTagProps] in terms of the named values. *)
Lemma getVideoTagProps_unfold (this : Video) :
  getVideoTagProps this =
    match sourceTypes (props this) with
    | TypeList sourceTypes =>
        {| sources := Some (generateSources (videoCld this) (videoPublicId this)
                              (videoChildTransformations this)
                              (videoSourceTransformation this) sourceTypes);
           tagAttributes := videoReconciled this |}
    | TypeScalar sourceType =>
        {| sources := None;
           tagAttributes :=
             <["src" := VStr (videoUrl this sourceType)]> (videoReconciled this) |}
    end.
Proof. reflexivity. Qed.

(** The branch of the list: one source per token, in the order of the
    tokens. *)
Lemma getVideoTagProps_list_sources (this : Video) (tokens : list string) :
  sourceTypes (props this) = TypeList tokens →
  ∃ l, sources (getVideoTagProps this) = Some l
     ∧ length l = length tokens
     ∧ ∀ i t, tokens !! i = Some t →
         ∃ s, l !! i = Some s ∧ src s = videoUrl this t.
Proof.
  intros Hst. rewrite getVideoTagProps_unfold, Hst. cbn [sources].
  eexists. split; [reflexivity|].
  split; [apply generateSources_length|].
  intros i t Hi.
  destruct (generateSources_lookup (videoCld this) (videoPublicId this)
              (videoChildTransformations this) (videoSourceTransformation this)
              tokens i t Hi) as (s & Hs & Hsrc & _).
  exists s. done.
Qed.

(** C2: when the format input is a list of format tokens, the derivation
    produces a sources list with exactly one element per token, at the same
    position as the token: its length is the number of tokens, its [i]-th
    element carries the URL resolved for the [i]-th token, so equal tokens
    give equal elements, all kept.  The tag attributes are those of the
    reconciliation: this branch sets no [src]. *)
Theorem getVideoTagProps_list (this : Video) (tokens : list string) :
  sourceTypes (props this) = TypeList tokens →
  ∃ l, sources (getVideoTagProps this) = Some l
     ∧ length l = length tokens
     ∧ (∀ i t, tokens !! i = Some t →
          ∃ s, l !! i = Some s ∧ src s = videoUrl this t)
     ∧ (∀ i j t, tokens !! i = Some t → tokens !! j = Some t →
          is_Some (l !! i) ∧ l !! i = l !! j)
     ∧ tagAttributes (getVideoTagProps this) = videoReconciled this.
Proof.
  intros Hst.
  destruct (getVideoTagProps_list_sources this tokens Hst) as (l & Hl & Hlen & Hith).
  exists l. split; [done|]. split; [done|]. split; [done|].
  split.
  - intros i j t Hi Hj.
    destruct (Hith i t Hi) as (s & Hs & _).
    split; [by eexists|].
    rewrite getVideoTagProps_unfold, Hst in Hl. cbn [sources] in Hl.
    injection Hl as <-. unfold generateSources.
    change (map ?f ?l) with (f <$> l).
    by rewrite !list_lookup_fmap, Hi, Hj.
  - by rewrite getVideoTagProps_unfold, Hst.
Qed.

(** C4: when the format input is a single token, the derivation sets the
    [src] attribute to the URL resolved for that token, and returns no
    sources: [sources] is [null], nothing is rendered for it. *)
Theorem getVideoTagProps_scalar (this : Video) (token : string) :
  sourceTypes (props this) = TypeScalar token →
  tagAttributes (getVideoTagProps this) !! "src" = Some (VStr (videoUrl this token))
  ∧ sources (getVideoTagProps this) = None
  ∧ renderedSources (getVideoTagProps this) = [].
Proof.
  intros Hst. unfold renderedSources.
  rewrite getVideoTagProps_unfold, Hst. cbn [sources tagAttributes].
  by rewrite lookup_insert_eq.
Qed.

(** C5: a pass-through entry is never dropped and raises nothing.  The
    attributes of the provider are converted to the camel-case dialect first
    and the pass-through entries are merged over them last: at the key of a
    pass-through entry the merged attributes hold the pass-through value,
    whatever the provider computed under that name; the attributes of the
    provider are kept at the other keys only; and the key of the entry is a
    key of the tag attributes the derivation returns, with the pass-through
    value there too (the branch of a single token then sets [src], C4). *)
Theorem passThrough_wins (this : Video) (k : string) (v : value) :
  nonCloudinaryProps (videoExtracted this) !! k = Some v →
  let provider :=
    withCamelCaseKeys
      (videoTag_attributes (videoCld this) (videoPublicId this) (videoOptions this)) in
  videoReconciled this !! k = Some v
  ∧ dom (videoReconciled this)
      = dom (nonCloudinaryProps (videoExtracted this)) ∪ dom provider
  ∧ (∀ k', nonCloudinaryProps (videoExtracted this) !! k' = None →
           videoReconciled this !! k' = provider !! k')
  ∧ k ∈ dom (tagAttributes (getVideoTagProps this))
  ∧ (∀ ts, sourceTypes (props this) = TypeList ts →
           tagAttributes (getVideoTagProps this) !! k = Some v)
  ∧ (k ≠ "src" → tagAttributes (getVideoTagProps this) !! k = Some v).
Proof.
  intros Hk provider.
  assert (videoReconciled this !! k = Some v) as Hrec.
  { unfold videoReconciled, reconcile. by apply lookup_union_Some_l. }
  split; [done|].
  split; [unfold videoReconciled, reconcile; apply dom_union_L|].
  split.
  { intros k' Hk'. unfold videoReconciled, reconcile.
    by rewrite lookup_union, Hk', (left_id_L None (∪)). }
  rewrite getVideoTagProps_unfold.
  destruct (sourceTypes (props this)) as [ts|t]; cbn [tagAttributes].
  - split; [by apply elem_of_dom; eexists|]. done.
  - split; [|split; [intros ts [=]|]].
    + apply elem_of_dom. destruct (decide (k = "src")) as [->|Hne].
      * rewrite lookup_insert_eq. by eexists.
      * rewrite lookup_insert_ne by done. by eexists.
    + intros Hne. by rewrite lookup_insert_ne.
Qed.

(** C6: the empty list of tokens is a list: the derivation returns the
    empty array of sources (not [null], the result of the single-format
    branch), and the tag attributes are those of the reconciliation, with
    no [src] set by this branch. *)
Theorem getVideoTagProps_empty_list (this : Video) :
  sourceTypes (props this) = TypeList [] →
  sources (getVideoTagProps this) = Some []
  ∧ sources (getVideoTagProps this) ≠ None
  ∧ tagAttributes (getVideoTagProps this) = videoReconciled this.
Proof.
  intros Hst. rewrite getVideoTagProps_unfold, Hst. cbn [sources tagAttributes].
  done.
Qed.

(** C7: the merged props hold every key of the context and of the props,
    and where both have a key the value of the props is the merged one.
    [sourceTypes], which the props always carry, comes from the props. *)
Theorem getMergedProps_props_win (this : Video) :
  let merged := getMergedProps this in
  dom (rest merged) = dom (rest (props this)) ∪ dom (cfg_rest (context this))
  ∧ (∀ k, rest merged !! k =
          match rest (props this) !! k with
          | Some v => Some v
          | None => cfg_rest (context this) !! k
          end)
  ∧ sourceTransformation merged =
      match sourceTransformation (props this) with
      | Some t => Some t
      | None => cfg_sourceTransformation (context this)
      end
  ∧ sourceTypes merged = sourceTypes (props this).
Proof.
  cbn. split; [apply dom_union_L|]. split; [|split; [|done]].
  - intros k. rewrite lookup_union.
    destruct (rest (props this) !! k), (cfg_rest (context this) !! k); done.
  - destruct (sourceTransformation (props this)),
      (cfg_sourceTransformation (context this)); done.
Qed.

(** C10: when the caller writes no [sourceTypes], React takes it from
    [Video.defaultProps], the default list of cloudinary-core; the props win
    over the context, so the derivation takes the branch of the list and
    returns one source per default token. *)
Theorem getVideoTagProps_default_sourceTypes (ctx written : Config)
    (element videoNode player : option nat) :
  cfg_sourceTypes written = None →
  let this := {| context := ctx; props := resolveDefaultProps written;
                 element := element; videoNode := videoNode; player := player |} in
  sourceTypes (getMergedProps this) = TypeList DEFAULT_VIDEO_PARAMS_source_types
  ∧ ∃ l, sources (getVideoTagProps this) = Some l
       ∧ length l = length DEFAULT_VIDEO_PARAMS_source_types
       ∧ ∀ i t, DEFAULT_VIDEO_PARAMS_source_types !! i = Some t →
           ∃ s, l !! i = Some s ∧ src s = videoUrl this t.
Proof.
  intros Hnone this.
  assert (sourceTypes (props this) = TypeList DEFAULT_VIDEO_PARAMS_source_types)
    as Hst by (cbn; by rewrite Hnone).
  split; [exact Hst|].
  apply (getVideoTagProps_list_sources this _ Hst).
Qed.

End Derivation.

(** The assignment of line 135 at work: for
    [<Video publicId="sample" sourceTypes="webm" src="mine.webm" />] the
    merged attributes hold the pass-through [src], and the branch of the
    single token then sets [src] to the resolved URL. *)
Lemma passThrough_src_overridden :
  nonCloudinaryProps (videoExtracted (H := Fake.services) Fake.scalarVideo) !! "src"
    = Some (VStr "mine.webm")
  ∧ videoReconciled (H := Fake.services) Fake.scalarVideo !! "src"
    = Some (VStr "mine.webm")
  ∧ tagAttributes (getVideoTagProps (H := Fake.services) Fake.scalarVideo) !! "src"
    = Some (VStr "https://res.cloudinary.com/demo/video/upload/sample.webm")
  ∧ tagAttributes (getVideoTagProps (H := Fake.services) Fake.scalarVideo) !! "src"
    ≠ Some (VStr "mine.webm").
Proof.
  split; [by vm_compute|]. split; [by vm_compute|]. split; [by vm_compute|].
  intros Heq. vm_compute in Heq. congruence.
Qed.

(** ** The theorems at work on the examples *)

Lemma getVideoTagProps_list_witness :
  sourceTypes (props Fake.listVideo) = TypeList ["mp4"; "ogv"]
  ∧ ∃ l, sources (getVideoTagProps (H := Fake.services) Fake.listVideo) = Some l
       ∧ length l = length ["mp4"; "ogv"]
       ∧ (∀ (i : nat) t, ["mp4"; "ogv"] !! i = Some t →
            ∃ s, l !! i = Some s ∧ src s = videoUrl (H := Fake.services) Fake.listVideo t)
       ∧ (∀ (i j : nat) t, ["mp4"; "ogv"] !! i = Some t → ["mp4"; "ogv"] !! j = Some t →
            is_Some (l !! i) ∧ l !! i = l !! j)
       ∧ tagAttributes (getVideoTagProps (H := Fake.services) Fake.listVideo)
           = videoReconciled (H := Fake.services) Fake.listVideo.
Proof.
  split; [reflexivity|].
  apply (getVideoTagProps_list (H := Fake.services) Fake.listVideo ["mp4"; "ogv"]).
  reflexivity.
Defined.

Lemma getVideoTagProps_scalar_witness :
  sourceTypes (props Fake.scalarVideo) = TypeScalar "webm"
  ∧ tagAttributes (getVideoTagProps (H := Fake.services) Fake.scalarVideo) !! "src"
      = Some (VStr (videoUrl (H := Fake.services) Fake.scalarVideo "webm"))
  ∧ sources (getVideoTagProps (H := Fake.services) Fake.scalarVideo) = None
  ∧ renderedSources (getVideoTagProps (H := Fake.services) Fake.scalarVideo) = [].
Proof.
  split; [reflexivity|].
  apply (getVideoTagProps_scalar (H := Fake.services) Fake.scalarVideo "webm").
  reflexivity.
Defined.

Lemma passThrough_wins_witness :
  nonCloudinaryProps (videoExtracted (H := Fake.services) Fake.listVideo) !! "poster"
    = Some (VStr "mine.jpg")
  ∧ withCamelCaseKeys (Services := Fake.services)
      (videoTag_attributes (videoCld (H := Fake.services) Fake.listVideo)
         (videoPublicId Fake.listVideo) (videoOptions (H := Fake.services) Fake.listVideo))
      !! "poster"
    = Some (VStr "https://res.cloudinary.com/demo/video/upload/sample.jpg")
  ∧ videoReconciled (H := Fake.services) Fake.listVideo !! "poster"
    = Some (VStr "mine.jpg")
  ∧ "poster" ∈ dom (tagAttributes (getVideoTagProps (H := Fake.services) Fake.listVideo))
  ∧ tagAttributes (getVideoTagProps (H := Fake.services) Fake.listVideo) !! "poster"
    = Some (VStr "mine.jpg").
Proof.
  assert (nonCloudinaryProps (videoExtracted (H := Fake.services) Fake.listVideo)
            !! "poster" = Some (VStr "mine.jpg")) as Hpass
    by (vm_compute; reflexivity).
  destruct (passThrough_wins (H := Fake.services) Fake.listVideo "poster"
              (VStr "mine.jpg") Hpass) as (Hrec & _ & _ & Hdom & _ & Hfinal).
  split; [exact Hpass|]. split; [vm_compute; reflexivity|].
  split; [exact Hrec|]. split; [exact Hdom|].
  apply Hfinal. discriminate.
Defined.

Lemma getVideoTagProps_empty_list_witness :
  sourceTypes (props Fake.emptyListVideo) = TypeList []
  ∧ sources (getVideoTagProps (H := Fake.services) Fake.emptyListVideo) = Some []
  ∧ sources (getVideoTagProps (H := Fake.services) Fake.emptyListVideo) ≠ None
  ∧ tagAttributes (getVideoTagProps (H := Fake.services) Fake.emptyListVideo)
      = videoReconciled (H := Fake.services) Fake.emptyListVideo.
Proof.
  split; [reflexivity|].
  apply (getVideoTagProps_empty_list (H := Fake.services) Fake.emptyListVideo).
  reflexivity.
Defined.

Lemma getVideoTagProps_default_sourceTypes_witness :
  let this := {| context := Fake.scalarContext;
                 props := resolveDefaultProps (H := Fake.services)
                            Fake.writtenWithoutSourceTypes;
                 element := None; videoNode := None; player := None |} in
  cfg_sourceTypes Fake.writtenWithoutSourceTypes = None
  ∧ sourceTypes (getMergedProps this) = TypeList ["webm"; "mp4"; "ogv"]
  ∧ ∃ l, sources (getVideoTagProps (H := Fake.services) this) = Some l
       ∧ length l = 3
       ∧ ∀ (i : nat) t, ["webm"; "mp4"; "ogv"] !! i = Some t →
           ∃ s, l !! i = Some s ∧ src s = videoUrl (H := Fake.services) this t.
Proof.
  split; [reflexivity|].
  apply (getVideoTagProps_default_sourceTypes (H := Fake.services)
           Fake.scalarContext Fake.writtenWithoutSourceTypes None None None).
  reflexivity.
Defined.

(** ** [generateVideoUrl] on a store *)

Section InPlaceFacts.
Context `{Services}.

(** One step of the loop of [Util.defaults] writes the destination only. *)
Lemma inplace_step (h : InPlace.heap) (dest source : InPlace.loc)
    (d s : options) (key : string) :
  h !! source = Some (InPlace.CObj s) →
  h !! dest = Some (InPlace.CObj d) →
  InPlace.bind (InPlace.getProp source key) (λ v,
    InPlace.bind (InPlace.getProp dest key) (λ d,
      if is_undefined d then InPlace.setProp dest key v
      else InPlace.ret tt)) h
  = Some (tt, <[dest := InPlace.CObj (assignDefault key (get s key) d)]> h).
Proof.
  intros Hs Hd.
  unfold InPlace.bind, InPlace.getProp, InPlace.bind, InPlace.readObj,
    InPlace.ret, InPlace.setProp.
  rewrite Hs, Hd. unfold assignDefault.
  destruct (is_undefined (get d key)).
  - by rewrite Hd.
  - by rewrite list_insert_id.
Qed.

Lemma inplace_forIn (dest source : InPlace.loc) (s : options)
    (keys : list string) (d : options) (h : InPlace.heap) :
  dest ≠ source →
  h !! source = Some (InPlace.CObj s) →
  h !! dest = Some (InPlace.CObj d) →
  InPlace.forIn keys (λ key,
    InPlace.bind (InPlace.getProp source key) (λ v,
      InPlace.bind (InPlace.getProp dest key) (λ d,
        if is_undefined d then InPlace.setProp dest key v
        else InPlace.ret tt))) h
  = Some (tt, <[dest := InPlace.CObj
                  (foldl (λ dest key, assignDefault key (get s key) dest) d keys)]> h).
Proof.
  intros Hne. revert d h. induction keys as [|key keys IH]; intros d h Hs Hd.
  - cbn. unfold InPlace.ret. by rewrite list_insert_id.
  - cbn [InPlace.forIn foldl]. unfold InPlace.bind at 1.
    rewrite (inplace_step h dest source d s key Hs Hd).
    assert (dest < length h) as Hlt by (by eapply lookup_lt_Some).
    rewrite (IH (assignDefault key (get s key) d)).
    + by rewrite list_insert_insert_eq.
    + by rewrite list_lookup_insert_ne.
    + by rewrite list_lookup_insert_eq.
Qed.

Lemma inplace_defaultsFrom (dest source : InPlace.loc) (d s : options)
    (h : InPlace.heap) :
  dest ≠ source →
  h !! source = Some (InPlace.CObj s) →
  h !! dest = Some (InPlace.CObj d) →
  InPlace.defaultsFrom dest source h
  = Some (tt, <[dest := InPlace.CObj (defaultsFrom d s)]> h).
Proof.
  intros Hne Hs Hd. unfold InPlace.defaultsFrom.
  unfold InPlace.bind at 1. unfold InPlace.readObj at 1. rewrite Hs.
  by apply inplace_forIn.
Qed.

(** The reduction over three sources, as [generateVideoUrl] calls it. *)
Lemma inplace_defaults3 (dest s1 s2 s3 : InPlace.loc) (d o1 o2 o3 : options)
    (h : InPlace.heap) :
  dest ≠ s1 → dest ≠ s2 → dest ≠ s3 →
  h !! s1 = Some (InPlace.CObj o1) →
  h !! s2 = Some (InPlace.CObj o2) →
  h !! s3 = Some (InPlace.CObj o3) →
  h !! dest = Some (InPlace.CObj d) →
  InPlace.defaults dest [s1; s2; s3] h
  = Some (dest, <[dest := InPlace.CObj (defaults d [o1; o2; o3])]> h).
Proof.
  intros Hn1 Hn2 Hn3 H1 H2 H3 Hd.
  assert (dest < length h) as Hlt by (by eapply lookup_lt_Some).
  cbn [InPlace.defaults]. unfold InPlace.bind at 1.
  rewrite (inplace_defaultsFrom dest s1 d o1 h) by done.
  unfold InPlace.bind at 1.
  rewrite (inplace_defaultsFrom dest s2 (defaultsFrom d o1) o2).
  2: done.
  2: by rewrite list_lookup_insert_ne.
  2: by rewrite list_lookup_insert_eq.
  rewrite list_insert_insert_eq.
  unfold InPlace.bind at 1.
  rewrite (inplace_defaultsFrom dest s3 (defaultsFrom (defaultsFrom d o1) o2) o3).
  2: done.
  2: by rewrite list_lookup_insert_ne.
  2: by rewrite list_lookup_insert_eq.
  rewrite list_insert_insert_eq. reflexivity.
Qed.

(** The store after the call extends the store before it: the objects that
    were there are unchanged, and the URL is the one of the resolver on the
    contents of its arguments. *)
Lemma inplace_generateVideoUrl_run (h : InPlace.heap) (cld : Cld) (publicId : value)
    (childTransformations sourceTransformations : InPlace.loc)
    (sourceType : string) (child : options) (table : gmap string InPlace.loc) :
  h !! childTransformations = Some (InPlace.CObj child) →
  h !! sourceTransformations = Some (InPlace.CTable table) →
  (∀ k l, table !! k = Some l → is_Some (InPlace.objectAt h l)) →
  ∃ created merged,
    InPlace.generateVideoUrl cld publicId childTransformations
      sourceTransformations sourceType h
    = Some (generateVideoUrl cld publicId child
              (InPlace.tableContents h table) sourceType,
            h ++ created)
    ∧ merged = urlOptions child (InPlace.tableContents h table) sourceType
    ∧ InPlace.CObj merged ∈ created.
Proof.
  intros Hct Hst Htable.
  assert (childTransformations < length h) as Hctlt by (by eapply lookup_lt_Some).
  set (fields := ({[ "resource_type" := VStr "video";
                     "format" := VStr sourceType ]} : options)).
  unfold InPlace.generateVideoUrl. fold fields.
  unfold InPlace.bind at 1. unfold InPlace.readTable at 1. rewrite Hst.
  unfold generateVideoUrl, urlOptions, InPlace.tableContents. cbv zeta.
  rewrite lookup_omap. fold fields.
  destruct (table !! sourceType) as [l|] eqn:Hl; cbn [mbind option_bind].
  - destruct (Htable _ _ Hl) as [o Ho]. rewrite Ho. cbn [default].
    unfold InPlace.objectAt in Ho.
    destruct (h !! l) as [[o'|]|] eqn:Hhl; try discriminate.
    injection Ho as ->.
    assert (l < length h) as Hllt by (by eapply lookup_lt_Some).
    unfold InPlace.bind at 1. unfold InPlace.ret at 1.
    unfold InPlace.bind at 1. unfold InPlace.alloc at 1.
    unfold InPlace.bind at 1. unfold InPlace.alloc at 1.
    unfold InPlace.bind at 1.
    rewrite (inplace_defaults3 (length h) l childTransformations
               (length (h ++ [InPlace.CObj ∅])) ∅ o child fields).
    2, 3: lia.
    2: rewrite length_app; cbn; lia.
    2: by rewrite !lookup_app_l by (rewrite ?length_app; cbn; lia).
    2: by rewrite !lookup_app_l by (rewrite ?length_app; cbn; lia).
    2: by apply list_lookup_middle.
    2: { rewrite <- (assoc_L (++)). by apply list_lookup_middle. }
    unfold InPlace.bind at 1. unfold InPlace.readObj at 1.
    rewrite list_lookup_insert_eq by (rewrite !length_app; cbn; lia).
    unfold InPlace.ret.
    exists [InPlace.CObj (defaults ∅ [o; child; fields]); InPlace.CObj fields].
    eexists. split; [|split; [reflexivity|apply list_elem_of_here]].
    do 2 f_equal. rewrite <- (assoc_L (++)).
    by rewrite insert_app_r_alt, Nat.sub_diag by lia.
  - cbn [default].
    unfold InPlace.bind at 1. unfold InPlace.alloc at 1.
    unfold InPlace.bind at 1. unfold InPlace.alloc at 1.
    unfold InPlace.bind at 1. unfold InPlace.alloc at 1.
    unfold InPlace.bind at 1.
    rewrite (inplace_defaults3 (length (h ++ [InPlace.CObj ∅])) (length h)
               childTransformations
               (length ((h ++ [InPlace.CObj ∅]) ++ [InPlace.CObj ∅]))
               ∅ ∅ child fields).
    2, 3, 4: rewrite ?length_app; cbn; lia.
    2: { rewrite <- !(assoc_L (++)). by apply list_lookup_middle. }
    2: by rewrite !lookup_app_l by (rewrite ?length_app; cbn; lia).
    2: by apply list_lookup_middle.
    2: { rewrite (lookup_app_l _ [InPlace.CObj fields])
           by (rewrite !length_app; cbn; lia).
         by apply list_lookup_middle. }
    unfold InPlace.bind at 1. unfold InPlace.readObj at 1.
    rewrite list_lookup_insert_eq by (rewrite !length_app; cbn; lia).
    unfold InPlace.ret.
    exists [InPlace.CObj ∅; InPlace.CObj (defaults ∅ [∅; child; fields]);
            InPlace.CObj fields].
    eexists. split; [|split; [reflexivity|]].
    + do 2 f_equal. rewrite <- !(assoc_L (++)).
      rewrite length_app. cbn [length].
      rewrite insert_app_r_alt by lia.
      replace (length h + 1 - length h) with 1 by lia. reflexivity.
    + apply list_elem_of_further, list_elem_of_here.
Qed.

(** C9: a call of the resolver leaves the mappings of its caller as they
    were.  Every object of the store before the call is unchanged after it,
    among them the override table, each override object and the
    element-level transformation; the merged options are in an object
    created by the call. *)
Theorem inplace_generateVideoUrl_frame (h : InPlace.heap) (cld : Cld)
    (publicId : value) (childTransformations sourceTransformations : InPlace.loc)
    (sourceType : string) (child : options) (table : gmap string InPlace.loc) :
  h !! childTransformations = Some (InPlace.CObj child) →
  h !! sourceTransformations = Some (InPlace.CTable table) →
  (∀ k l, table !! k = Some l → is_Some (InPlace.objectAt h l)) →
  ∃ h',
    InPlace.generateVideoUrl cld publicId childTransformations
      sourceTransformations sourceType h
    = Some (generateVideoUrl cld publicId child
              (InPlace.tableContents h table) sourceType, h')
    ∧ (∀ l c, h !! l = Some c → h' !! l = Some c)
    ∧ h' !! childTransformations = Some (InPlace.CObj child)
    ∧ h' !! sourceTransformations = Some (InPlace.CTable table)
    ∧ InPlace.tableContents h' table = InPlace.tableContents h table
    ∧ ∃ l, length h ≤ l
         ∧ h' !! l = Some (InPlace.CObj
               (urlOptions child (InPlace.tableContents h table) sourceType)).
Proof.
  intros Hct Hst Htable.
  destruct (inplace_generateVideoUrl_run h cld publicId childTransformations
              sourceTransformations sourceType child table Hct Hst Htable)
    as (created & merged & Hrun & -> & Hin).
  assert (∀ l c, h !! l = Some c → (h ++ created) !! l = Some c) as Hframe.
  { intros l c Hl. rewrite lookup_app_l; [done|]. by eapply lookup_lt_Some. }
  exists (h ++ created). split; [done|]. split; [done|].
  split; [by apply Hframe|]. split; [by apply Hframe|]. split.
  - unfold InPlace.tableContents. apply map_eq. intros k.
    rewrite !lookup_omap. destruct (table !! k) as [l|] eqn:Hk; [|done].
    cbn [mbind option_bind].
    destruct (Htable k l Hk) as [o Ho]. unfold InPlace.objectAt in *.
    destruct (h !! l) as [c|] eqn:Hl; [|discriminate].
    by rewrite (Hframe l c Hl).
  - apply list_elem_of_lookup in Hin as [i Hi].
    exists (length h + i). split; [lia|].
    by rewrite lookup_app_r, Nat.add_comm, Nat.add_sub by lia.
Qed.

End InPlaceFacts.

Lemma inplace_generateVideoUrl_frame_witness :
  let table : gmap string InPlace.loc := {[ "mp4" := 1 ]} in
  let child : options := {[ "width" := VNum 300 ]} in
  Fake.store !! 2 = Some (InPlace.CObj child)
  ∧ Fake.store !! 0 = Some (InPlace.CTable table)
  ∧ ∃ h',
      InPlace.generateVideoUrl (H := Fake.services) ∅ (VStr "sample") 2 0 "mp4"
        Fake.store
      = Some (generateVideoUrl (H := Fake.services) ∅ (VStr "sample") child
                (InPlace.tableContents Fake.store table) "mp4", h')
      ∧ (∀ (l : nat) c, Fake.store !! l = Some c → h' !! l = Some c)
      ∧ h' !! 2 = Some (InPlace.CObj child)
      ∧ h' !! 0 = Some (InPlace.CTable table)
      ∧ InPlace.tableContents h' table = InPlace.tableContents Fake.store table
      ∧ ∃ l : nat, length Fake.store ≤ l
           ∧ h' !! l = Some (InPlace.CObj
                 (urlOptions child (InPlace.tableContents Fake.store table) "mp4")).
Proof.
  intros table child. split; [reflexivity|]. split; [reflexivity|].
  apply (inplace_generateVideoUrl_frame (H := Fake.services) Fake.store ∅
           (VStr "sample") 2 0 "mp4" child table); [reflexivity|reflexivity|].
  intros k l Hk. apply lookup_singleton_Some in Hk as [_ <-].
  eexists. reflexivity.
Defined.

(** * Further properties *)

(** ** The options of the resolver *)

Lemma defaultsFrom_dom (dest source : options) :
  dom (defaultsFrom dest source) = dom dest ∪ dom source.
Proof.
  apply set_eq. intros k.
  rewrite elem_of_union, !elem_of_dom, defaultsFrom_lookup.
  destruct (dest !! k) as [v|], (source !! k) as [w|]; simpl;
    try destruct (is_undefined v); rewrite ?is_Some_alt; tauto.
Qed.

(** X1: the options handed to [cld.url] have exactly the keys of the
    override of the token, of the element-level transformation, and the two
    keys [resource_type] and [format]; these two are always there. *)
Theorem urlOptions_keys (childTransformations : options)
    (sourceTransformations : gmap string options) (sourceType : string) :
  let merged := urlOptions childTransformations sourceTransformations sourceType in
  dom merged =
    dom (default ∅ (sourceTransformations !! sourceType))
      ∪ dom childTransformations ∪ {[ "resource_type"; "format" ]}
  ∧ "resource_type" ∈ dom merged
  ∧ "format" ∈ dom merged.
Proof.
  assert (dom (urlOptions childTransformations sourceTransformations sourceType) =
            dom (default ∅ (sourceTransformations !! sourceType))
              ∪ dom childTransformations ∪ {[ "resource_type"; "format" ]}) as Hdom.
  { unfold urlOptions, defaults. cbn [foldl].
    rewrite !defaultsFrom_dom, dom_empty_L, dom_insert_L, dom_singleton_L.
    by rewrite (left_id_L ∅ (∪)). }
  cbv zeta. rewrite Hdom. split; [done|].
  split; apply elem_of_union_r.
  - apply elem_of_union_l. by apply elem_of_singleton.
  - apply elem_of_union_r. by apply elem_of_singleton.
Qed.

(** X2: when neither the override of the token nor the element-level
    transformation holds an undefined value, the options are the union of the
    three layers in which the override comes first, the element-level
    transformation second and the fields [resource_type] and [format] last. *)
Theorem urlOptions_union (childTransformations : options)
    (sourceTransformations : gmap string options) (sourceType : string) :
  (∀ k, default ∅ (sourceTransformations !! sourceType) !! k ≠ Some VUndefined) →
  (∀ k, childTransformations !! k ≠ Some VUndefined) →
  urlOptions childTransformations sourceTransformations sourceType =
    default ∅ (sourceTransformations !! sourceType)
      ∪ (childTransformations
           ∪ {[ "resource_type" := VStr "video"; "format" := VStr sourceType ]}).
Proof.
  intros Ho Hc. apply map_eq. intros k.
  rewrite urlOptions_lookup, !lookup_union.
  specialize (Ho k). specialize (Hc k).
  destruct (default ∅ (sourceTransformations !! sourceType) !! k) as [[]|];
    destruct (childTransformations !! k) as [[]|];
    destruct (_ !! k) as [f|]; simpl; (done || congruence).
Qed.

Lemma urlOptions_union_witness :
  let overrides : gmap string options := {[ "mp4" := {[ "quality" := VNum 70 ]} ]} in
  let child : options := {[ "width" := VNum 300; "quality" := VNum 50 ]} in
  urlOptions child overrides "mp4" =
    default ∅ (overrides !! "mp4")
      ∪ (child ∪ {[ "resource_type" := VStr "video"; "format" := VStr "mp4" ]})
  ∧ urlOptions child overrides "mp4" !! "quality" = Some (VNum 70).
Proof.
  intros overrides child.
  assert (urlOptions child overrides "mp4" =
            default ∅ (overrides !! "mp4")
              ∪ (child ∪ {[ "resource_type" := VStr "video"; "format" := VStr "mp4" ]}))
    as Heq.
  { apply (urlOptions_union child overrides "mp4").
    - intros k. replace (default ∅ (overrides !! "mp4"))
        with ({[ "quality" := VNum 70 ]} : options) by (by vm_compute).
      intros [_ ?]%lookup_singleton_Some. discriminate.
    - intros k. unfold child.
      intros [[_ ?]|[_ [_ ?]%lookup_singleton_Some]]%lookup_insert_Some; discriminate. }
  split; [exact Heq|]. by vm_compute.
Defined.

(** ** The sources *)

Section SourcesMore.
Context `{Services}.

(** X3: the sources depend on the overrides of the listed tokens only: an
    override registered for a token that is not requested changes nothing. *)
Theorem generateSources_other_overrides (cld : Cld) (publicId : value)
    (childTransformations : options)
    (sourceTransformations sourceTransformations' : gmap string options)
    (sourceTypes : list string) :
  (∀ t, t ∈ sourceTypes → sourceTransformations !! t = sourceTransformations' !! t) →
  generateSources cld publicId childTransformations sourceTransformations sourceTypes
  = generateSources cld publicId childTransformations sourceTransformations' sourceTypes.
Proof.
  intros Hagree. unfold generateSources. apply map_ext_in.
  intros t Ht%list_elem_of_In. unfold generateVideoUrl.
  by rewrite (Hagree t Ht).
Qed.

Lemma mediaType_inj (t t' : string) :
  mimeType +:+ "/" +:+ t = mimeType +:+ "/" +:+ t' → t = t'.
Proof. unfold mimeType. intros Heq. cbn in Heq. by simplify_eq. Qed.

(** X4: the keys of the sources are pairwise distinct when the tokens are,
    unless both ["ogv"] and ["ogg"] are requested. *)
Theorem generateSources_keys_NoDup (cld : Cld) (publicId : value)
    (childTransformations : options)
    (sourceTransformations : gmap string options) (sourceTypes : list string) :
  NoDup sourceTypes →
  ¬ ("ogv" ∈ sourceTypes ∧ "ogg" ∈ sourceTypes) →
  NoDup (key <$> generateSources cld publicId childTransformations
                   sourceTransformations sourceTypes).
Proof.
  intros Hnd Hogg. unfold generateSources.
  change (map ?f ?l) with (f <$> l). rewrite <- list_fmap_compose.
  apply NoDup_fmap_2_strong; [|done].
  intros t t' Ht Ht' Heq. cbn in Heq. apply mediaType_inj in Heq.
  destruct (decide (t = "ogv")) as [->|], (decide (t' = "ogv")) as [->|];
    try done; subst; exfalso; apply Hogg; done.
Qed.

(** X5: the tokens ["ogv"] and ["ogg"] give sources with the same key and
    the same media type, ["video/ogg"]. *)
Theorem generateSources_ogv_ogg_collide (cld : Cld) (publicId : value)
    (childTransformations : options)
    (sourceTransformations : gmap string options) (sourceTypes : list string)
    (i j : nat) :
  sourceTypes !! i = Some "ogv" →
  sourceTypes !! j = Some "ogg" →
  ∃ s s', generateSources cld publicId childTransformations
            sourceTransformations sourceTypes !! i = Some s
        ∧ generateSources cld publicId childTransformations
            sourceTransformations sourceTypes !! j = Some s'
        ∧ key s = key s' ∧ type s = "video/ogg" ∧ type s' = "video/ogg".
Proof.
  intros Hi Hj.
  destruct (generateSources_lookup cld publicId childTransformations
              sourceTransformations sourceTypes i "ogv" Hi)
    as (s & Hs & _ & Hk & Ht).
  destruct (generateSources_lookup cld publicId childTransformations
              sourceTransformations sourceTypes j "ogg" Hj)
    as (s' & Hs' & _ & Hk' & Ht').
  exists s, s'. rewrite Hk, Hk', Ht, Ht'. done.
Qed.

End SourcesMore.

(** ** What the derivation depends on *)

Section DerivationMore.
Context `{Services}.

(** The derivation reads the merged props through the rest of the
    destructuring, [publicId], [children], [sourceTransformation] and
    [sourceTypes]. *)
Lemma named_values_ext (this this' : Video) :
  restOptions (rest (getMergedProps this)) = restOptions (rest (getMergedProps this')) →
  get (rest (getMergedProps this)) "publicId"
    = get (rest (getMergedProps this')) "publicId" →
  get (rest (getMergedProps this)) "children"
    = get (rest (getMergedProps this')) "children" →
  sourceTransformation (getMergedProps this)
    = sourceTransformation (getMergedProps this') →
  videoReconciled this = videoReconciled this'
  ∧ (∀ t, videoUrl this t = videoUrl this' t)
  ∧ (∀ ts, generateSources (videoCld this) (videoPublicId this)
             (videoChildTransformations this) (videoSourceTransformation this) ts
           = generateSources (videoCld this') (videoPublicId this')
               (videoChildTransformations this') (videoSourceTransformation this') ts).
Proof.
  intros Hrest Hid Hch Hst.
  unfold videoReconciled, videoUrl, videoCld, videoChildTransformations,
    videoOptions, videoExtracted, videoPublicId, videoSourceTransformation.
  rewrite Hrest, Hid, Hch, Hst. done.
Qed.

Lemma getVideoTagProps_ext (this this' : Video) :
  restOptions (rest (getMergedProps this)) = restOptions (rest (getMergedProps this')) →
  get (rest (getMergedProps this)) "publicId"
    = get (rest (getMergedProps this')) "publicId" →
  get (rest (getMergedProps this)) "children"
    = get (rest (getMergedProps this')) "children" →
  sourceTransformation (getMergedProps this)
    = sourceTransformation (getMergedProps this') →
  sourceTypes (props this) = sourceTypes (props this') →
  getVideoTagProps this = getVideoTagProps this'.
Proof.
  intros Hrest Hid Hch Hst Hty.
  destruct (named_values_ext this this' Hrest Hid Hch Hst) as (Hrec & Hurl & Hsrc).
  rewrite !getVideoTagProps_unfold, Hty.
  destruct (sourceTypes (props this')); by rewrite ?Hrec, ?Hurl, ?Hsrc.
Qed.

Lemma merged_agree (this this' : Video) :
  context this = context this' →
  sourceTransformation (props this) = sourceTransformation (props this') →
  rest (props this) = rest (props this') →
  rest (getMergedProps this) = rest (getMergedProps this')
  ∧ sourceTransformation (getMergedProps this)
      = sourceTransformation (getMergedProps this').
Proof. intros Hc Hst Hr. cbn. by rewrite Hc, Hst, Hr. Qed.

Lemma restOptions_lookup (merged : options) (k : string) :
  restOptions merged !! k =
    if decide (k ∈ ["innerRef"; "publicId"; "fallback"; "children";
                    "sourceTypes"; "sourceTransformation"])
    then None else merged !! k.
Proof.
  unfold restOptions. rewrite !lookup_delete.
  repeat (case_decide; [subst k; rewrite decide_True; [done|]; by repeat constructor|]).
  rewrite decide_False; [done|].
  rewrite !elem_of_cons, elem_of_nil. intuition congruence.
Qed.

(** X6: an element with a single format token and an element with a list
    of tokens, alike in everything else, resolve the same URL for the same
    token: the [src] attribute of the first is the [src] of the source the
    second emits for that token. *)
Theorem single_and_list_resolve_alike (this this' : Video) (t : string)
    (ts : list string) (i : nat) :
  context this = context this' →
  sourceTransformation (props this) = sourceTransformation (props this') →
  rest (props this) = rest (props this') →
  sourceTypes (props this) = TypeScalar t →
  sourceTypes (props this') = TypeList ts →
  ts !! i = Some t →
  ∃ l s, sources (getVideoTagProps this') = Some l
       ∧ l !! i = Some s
       ∧ tagAttributes (getVideoTagProps this) !! "src" = Some (VStr (src s)).
Proof.
  intros Hc Hst Hr Hty Hty' Hi.
  destruct (merged_agree this this' Hc Hst Hr) as [Hrest Hmst].
  assert (videoUrl this t = videoUrl this' t) as Hurl.
  { apply named_values_ext; by rewrite ?Hrest. }
  destruct (getVideoTagProps_list_sources this' ts Hty') as (l & Hl & _ & Hith).
  destruct (Hith i t Hi) as (s & Hs & Hsrc).
  exists l, s. split; [done|]. split; [done|].
  rewrite getVideoTagProps_unfold, Hty. cbn [tagAttributes].
  by rewrite lookup_insert_eq, Hsrc, Hurl.
Qed.

(** X7: [sourceTypes] decides the sources and the [src] attribute, and
    nothing else: two elements alike in everything but [sourceTypes] have
    the same tag attributes at every key other than [src]. *)
Theorem sourceTypes_only_src (this this' : Video) (k : string) :
  context this = context this' →
  sourceTransformation (props this) = sourceTransformation (props this') →
  rest (props this) = rest (props this') →
  k ≠ "src" →
  tagAttributes (getVideoTagProps this) !! k
    = tagAttributes (getVideoTagProps this') !! k.
Proof.
  intros Hc Hst Hr Hk.
  destruct (merged_agree this this' Hc Hst Hr) as [Hrest Hmst].
  assert (videoReconciled this = videoReconciled this') as Hrec.
  { apply named_values_ext; by rewrite ?Hrest. }
  rewrite !getVideoTagProps_unfold.
  destruct (sourceTypes (props this)), (sourceTypes (props this'));
    cbn [tagAttributes]; rewrite ?lookup_insert_ne by done; by rewrite Hrec.
Qed.

(** X8: [innerRef] and [fallback] are taken out of the options and used
    nowhere in the derivation: two elements whose merged props agree at every
    other key have the same sources and the same tag attributes. *)
Theorem innerRef_fallback_unused (this this' : Video) :
  (∀ k, k ≠ "innerRef" → k ≠ "fallback" →
        rest (getMergedProps this) !! k = rest (getMergedProps this') !! k) →
  sourceTransformation (getMergedProps this)
    = sourceTransformation (getMergedProps this') →
  sourceTypes (props this) = sourceTypes (props this') →
  getVideoTagProps this = getVideoTagProps this'.
Proof.
  intros Hagree Hst Hty.
  apply getVideoTagProps_ext; [| | |done|done].
  2, 3: unfold get; rewrite Hagree; [done|discriminate|discriminate].
  apply map_eq. intros k. rewrite !restOptions_lookup.
  case_decide as Hk; [done|]. apply Hagree; intros ->; apply Hk.
  - apply list_elem_of_here.
  - do 2 apply list_elem_of_further. apply list_elem_of_here.
Qed.

(** X9: a [sourceTypes] held by the context is never used, and a
    [sourceTransformation] held by the context is used only when the props
    have none, then as a whole: the two mappings are not merged token by
    token. *)
Theorem context_overrides_unused (this this' : Video) :
  props this = props this' →
  cfg_rest (context this) = cfg_rest (context this') →
  (sourceTransformation (props this) = None →
   cfg_sourceTransformation (context this) = cfg_sourceTransformation (context this')) →
  getVideoTagProps this = getVideoTagProps this'.
Proof.
  intros Hp Hr Hst.
  assert (rest (getMergedProps this) = rest (getMergedProps this')) as Hrest
    by (cbn; by rewrite Hp, Hr).
  apply getVideoTagProps_ext; rewrite ?Hrest, ?Hp; try done.
  cbn. rewrite <- Hp. destruct (sourceTransformation (props this)) as [st|].
  - by destruct (cfg_sourceTransformation (context this)),
      (cfg_sourceTransformation (context this')).
  - by rewrite Hst.
Qed.

(** X10: a [sourceTypes] the caller writes is the one the derivation uses,
    whatever the context and the default are; the sources are [null] exactly
    when the caller wrote a single token. *)
Theorem written_sourceTypes_used (ctx written : Config) (st : SourceTypes)
    (element videoNode player : option nat) :
  cfg_sourceTypes written = Some st →
  let this := {| context := ctx; props := resolveDefaultProps written;
                 element := element; videoNode := videoNode; player := player |} in
  sourceTypes (getMergedProps this) = st
  ∧ (sources (getVideoTagProps this) = None ↔ ∃ t, st = TypeScalar t).
Proof.
  intros Hw this.
  assert (sourceTypes (props this) = st) as Hst by (cbn; by rewrite Hw).
  split; [exact Hst|].
  rewrite getVideoTagProps_unfold, Hst.
  destruct st as [ts|t]; cbn [sources]; split; try done.
  - intros [t ?]. discriminate.
  - intros _. by exists t.
Qed.

End DerivationMore.

(** ** Successive calls on a store *)

Section InPlaceMore.
Context `{Services}.

Lemma objectAt_app (h created : InPlace.heap) (l : InPlace.loc) :
  is_Some (InPlace.objectAt h l) →
  InPlace.objectAt (h ++ created) l = InPlace.objectAt h l.
Proof.
  intros [o Ho]. unfold InPlace.objectAt in *.
  destruct (h !! l) as [c|] eqn:Hl; [|discriminate].
  rewrite lookup_app_l by (by eapply lookup_lt_Some). by rewrite Hl.
Qed.

Lemma tableContents_app (h created : InPlace.heap) (table : gmap string InPlace.loc) :
  (∀ k l, table !! k = Some l → is_Some (InPlace.objectAt h l)) →
  InPlace.tableContents (h ++ created) table = InPlace.tableContents h table.
Proof.
  intros Htable. unfold InPlace.tableContents. apply map_eq. intros k.
  rewrite !lookup_omap. destruct (table !! k) as [l|] eqn:Hk; [|done].
  cbn [mbind option_bind]. apply objectAt_app. by eapply Htable.
Qed.

(** The arguments of the resolver are as well-formed in the store after a
    call as they were before it. *)
Lemma arguments_app (h created : InPlace.heap)
    (childTransformations sourceTransformations : InPlace.loc)
    (child : options) (table : gmap string InPlace.loc) :
  h !! childTransformations = Some (InPlace.CObj child) →
  h !! sourceTransformations = Some (InPlace.CTable table) →
  (∀ k l, table !! k = Some l → is_Some (InPlace.objectAt h l)) →
  (h ++ created) !! childTransformations = Some (InPlace.CObj child)
  ∧ (h ++ created) !! sourceTransformations = Some (InPlace.CTable table)
  ∧ (∀ k l, table !! k = Some l → is_Some (InPlace.objectAt (h ++ created) l)).
Proof.
  intros Hct Hst Htable.
  split; [|split].
  - rewrite lookup_app_l by (by eapply lookup_lt_Some). done.
  - rewrite lookup_app_l by (by eapply lookup_lt_Some). done.
  - intros k l Hk. rewrite objectAt_app; by eapply Htable.
Qed.

(** X11: a call of the resolver does not influence a later one.  After
    resolving a token on a store, resolving any token on the store the first
    call left returns the URL it would have returned on the store before the
    first call, and the objects of that store are still unchanged. *)
Theorem inplace_generateVideoUrl_twice (h : InPlace.heap) (cld : Cld)
    (publicId : value) (childTransformations sourceTransformations : InPlace.loc)
    (sourceType sourceType' : string) (child : options)
    (table : gmap string InPlace.loc) :
  h !! childTransformations = Some (InPlace.CObj child) →
  h !! sourceTransformations = Some (InPlace.CTable table) →
  (∀ k l, table !! k = Some l → is_Some (InPlace.objectAt h l)) →
  ∃ u h1 h2,
    InPlace.generateVideoUrl cld publicId childTransformations
      sourceTransformations sourceType h = Some (u, h1)
    ∧ InPlace.generateVideoUrl cld publicId childTransformations
        sourceTransformations sourceType' h1
      = Some (generateVideoUrl cld publicId child
                (InPlace.tableContents h table) sourceType', h2)
    ∧ ∀ l c, h !! l = Some c → h2 !! l = Some c.
Proof.
  intros Hct Hst Htable.
  destruct (inplace_generateVideoUrl_run h cld publicId childTransformations
              sourceTransformations sourceType child table Hct Hst Htable)
    as (created & _ & Hrun & _ & _).
  destruct (arguments_app h created _ _ child table Hct Hst Htable)
    as (Hct1 & Hst1 & Htable1).
  destruct (inplace_generateVideoUrl_run (h ++ created) cld publicId
              childTransformations sourceTransformations sourceType' child table
              Hct1 Hst1 Htable1)
    as (created' & _ & Hrun' & _ & _).
  rewrite tableContents_app in Hrun' by done.
  eexists _, _, _. split; [exact Hrun|]. split; [exact Hrun'|].
  intros l c Hl. rewrite <- (assoc_L (++)).
  rewrite lookup_app_l by (by eapply lookup_lt_Some). done.
Qed.

(** X12: the source set builder on a store.  The calls of the resolver, one
    per token on the store the previous one left, give the sources of
    [generateSources] on the contents of the arguments, and leave every
    object of the store before the first call unchanged. *)
Theorem inplace_generateSources_frame (sourceTypes : list string)
    (h : InPlace.heap) (cld : Cld) (publicId : value)
    (childTransformations sourceTransformations : InPlace.loc)
    (child : options) (table : gmap string InPlace.loc) :
  h !! childTransformations = Some (InPlace.CObj child) →
  h !! sourceTransformations = Some (InPlace.CTable table) →
  (∀ k l, table !! k = Some l → is_Some (InPlace.objectAt h l)) →
  ∃ created,
    InPlace.generateSources cld publicId childTransformations
      sourceTransformations sourceTypes h
    = Some (generateSources cld publicId child
              (InPlace.tableContents h table) sourceTypes, h ++ created)
    ∧ ∀ l c, h !! l = Some c → (h ++ created) !! l = Some c.
Proof.
  revert h. induction sourceTypes as [|t ts IH]; intros h Hct Hst Htable.
  - exists []. split; [by rewrite (right_id_L [] (++))|].
    intros l c Hl. by rewrite (right_id_L [] (++)).
  - destruct (inplace_generateVideoUrl_run h cld publicId childTransformations
                sourceTransformations t child table Hct Hst Htable)
      as (created & _ & Hrun & _ & _).
    destruct (arguments_app h created _ _ child table Hct Hst Htable)
      as (Hct1 & Hst1 & Htable1).
    destruct (IH (h ++ created) Hct1 Hst1 Htable1) as (created' & Hrest & _).
    rewrite tableContents_app in Hrest by done.
    exists (created ++ created'). split.
    + unfold InPlace.generateSources in *. cbn [InPlace.mapM generateSources map].
      unfold InPlace.bind at 1. unfold InPlace.bind at 1. rewrite Hrun.
      unfold InPlace.ret at 1. unfold InPlace.bind at 1. rewrite Hrest.
      unfold InPlace.ret. by rewrite (assoc_L (++)).
    + intros l c Hl. rewrite lookup_app_l by (by eapply lookup_lt_Some). done.
Qed.

End InPlaceMore.

(** ** Rendering and lifecycle *)

Section LifecycleFacts.
Context `{Services} `{VideoJs}.

(** X13: the [<video>] that [render] returns has the class ["video-js"] and
    the [ref] that sets [this.videoNode], whatever the tag attributes hold
    under these two names; [this.attachRef] is attached nowhere; every other
    tag attribute of the derivation is a prop of the element, with its value,
    and the sources of the derivation are its first child. *)
Theorem render_video_props (this : Video) :
  let v := div_video (render this) in
  video_props v !! "className" = Some (AttrValue (VStr "video-js"))
  ∧ video_props v !! "ref" = Some (AttrRef SetVideoNode)
  ∧ (∀ k, video_props v !! k ≠ Some (AttrRef AttachRef))
  ∧ (∀ k, k ≠ "className" → k ≠ "ref" →
       video_props v !! k = AttrValue <$> tagAttributes (getVideoTagProps this) !! k)
  ∧ video_sources v = sources (getVideoTagProps this).
Proof.
  cbn [render div_video video_props video_sources].
  split; [by rewrite lookup_insert_eq|].
  split; [by rewrite lookup_insert_ne, lookup_insert_eq|].
  assert (∀ k, k ≠ "className" → k ≠ "ref" →
            <["className" := AttrValue (VStr "video-js")]>
              (<["ref" := AttrRef SetVideoNode]>
                 ((AttrValue <$> tagAttributes (getVideoTagProps this))
                    ∪ {[ "ref" := AttrRef AttachRef ]})) !! k
            = AttrValue <$> tagAttributes (getVideoTagProps this) !! k) as Hother.
  { intros k Hc Hr. rewrite !lookup_insert_ne by done.
    rewrite lookup_union, lookup_fmap, lookup_singleton_ne by done.
    by destruct (tagAttributes (getVideoTagProps this) !! k). }
  split; [|split; [exact Hother | reflexivity]].
  intros k. destruct (decide (k = "className")) as [->|Hc].
  { by rewrite lookup_insert_eq. }
  destruct (decide (k = "ref")) as [->|Hr].
  { by rewrite lookup_insert_ne, lookup_insert_eq. }
  rewrite Hother by done.
  by destruct (tagAttributes (getVideoTagProps this) !! k).
Qed.

(** The derivation does not read the fields a step writes. *)
Lemma getVideoTagProps_fields (this this' : Video) :
  context this = context this' → props this = props this' →
  getVideoTagProps this = getVideoTagProps this'.
Proof.
  intros Hc Hp. unfold getVideoTagProps, getMergedProps. by rewrite Hc, Hp.
Qed.

Lemma step_instance (w : World) (l : lifecycle) :
  context (instance (step w l)) = context (instance w)
  ∧ props (instance (step w l)) = props (instance w)
  ∧ element (instance (step w l)) = element (instance w)
  ∧ ∃ made, calls (step w l) = calls w ++ made.
Proof.
  destruct l as [node| | |]; cbn [step].
  - unfold setVideoNode. cbn. repeat split. exists []. by rewrite (right_id_L [] (++)).
  - unfold componentDidMount. cbn. repeat split. by eexists.
  - unfold componentDidUpdate, reloadVideo.
    destruct (element (instance w)) as [n|] eqn:He; cbn; rewrite ?He; repeat split.
    + by eexists.
    + exists []. by rewrite (right_id_L [] (++)).
  - unfold componentWillUnmount.
    destruct (player (instance w)) as [p|]; cbn; repeat split.
    + by eexists.
    + exists []. by rewrite (right_id_L [] (++)).
Qed.

Lemma run_instance (ls : list lifecycle) (w : World) :
  context (instance (run ls w)) = context (instance w)
  ∧ props (instance (run ls w)) = props (instance w)
  ∧ element (instance (run ls w)) = element (instance w)
  ∧ ∃ made, calls (run ls w) = calls w ++ made.
Proof.
  revert w. induction ls as [|l ls IH]; intros w.
  - cbn. repeat split. exists []. by rewrite (right_id_L [] (++)).
  - unfold run in *. cbn [foldl].
    destruct (IH (step w l)) as (Hc & Hp & He & made' & Hm).
    destruct (step_instance w l) as (Hc1 & Hp1 & He1 & made & Hm1).
    rewrite Hc, Hp, He, Hm, Hm1. repeat split; try done.
    exists (made ++ made'). by rewrite (assoc_L (++)).
Qed.

(** X14: React mounts the element on a node and later unmounts it.  The
    [ref] stores the node, [componentDidMount] creates one player on that
    node, with the sources of the derivation and the fixed size 720 by 300,
    and [componentWillUnmount] disposes of that player; nothing else is
    called.  The player of a single-format element gets no sources. *)
Theorem mount_unmount_calls (w : World) (node : nat) :
  ∃ o,
    calls (run [RefCallback (Some node); DidMount; WillUnmount] w)
      = calls w ++ [VideojsCall (Some node) o;
                    DisposeCall (videojs (calls w) (Some node) o)]
    ∧ Player.sources o = sources (getVideoTagProps (instance w))
    ∧ Player.width o = 720%Z ∧ Player.height o = 300%Z
    ∧ Player.controls o = true ∧ Player.autoplay o = false
    ∧ (∀ t, sourceTypes (props (instance w)) = TypeScalar t → Player.sources o = None).
Proof.
  eexists. split.
  - unfold run. cbn [foldl step].
    unfold componentWillUnmount, componentDidMount, setVideoNode.
    cbn [instance calls player videoNode context props element].
    rewrite <- (assoc_L (++)). reflexivity.
  - cbn [Player.sources Player.width Player.height Player.controls Player.autoplay].
    assert (getVideoTagProps
              {| context := context (instance w); props := props (instance w);
                 element := element (instance w); videoNode := Some node;
                 player := player (instance w) |}
            = getVideoTagProps (instance w)) as ->
      by (by apply getVideoTagProps_fields).
    repeat split.
    intros t Ht. by rewrite getVideoTagProps_unfold, Ht.
Qed.

Lemma updateStep_delivered (w : World) (u : update) :
  (props (instance (updateStep w u)), context (instance (updateStep w u)))
  = delivered [u] (props (instance w), context (instance w)).
Proof.
  destruct u as [p c|l]; cbn [updateStep delivered foldl]; [done|].
  destruct (step_instance w l) as (Hc & Hp & _). by rewrite Hc, Hp.
Qed.

Lemma life_delivered (us : list update) (w : World) :
  (props (instance (life us w)), context (instance (life us w)))
  = delivered us (props (instance w), context (instance w)).
Proof.
  revert w. induction us as [|u us IH]; intros w; [done|].
  unfold life, delivered in *. cbn [foldl].
  rewrite IH. f_equal. apply (updateStep_delivered w u).
Qed.

(** X15: what the derivation and [render] return depends on the props and
    the context React delivered last, and on nothing that happened before.
    After any sequence of deliveries of props and steps of the lifecycle,
    [getVideoTagProps] and [render] return what they return for a fresh
    element with the props and context delivered last: the earlier props,
    the node stored and the player created leave no trace, and no method of
    the component writes [this.props] or [this.context]. *)
Theorem derivation_follows_delivered_props (us : list update) (w : World) :
  let p := (delivered us (props (instance w), context (instance w))).1 in
  let c := (delivered us (props (instance w), context (instance w))).2 in
  props (instance (life us w)) = p
  ∧ context (instance (life us w)) = c
  ∧ getVideoTagProps (instance (life us w)) = getVideoTagProps (fresh p c)
  ∧ render (instance (life us w)) = render (fresh p c).
Proof.
  intros p c. pose proof (life_delivered us w) as Hd.
  assert (props (instance (life us w)) = p) as Hp by (unfold p; by rewrite <- Hd).
  assert (context (instance (life us w)) = c) as Hc by (unfold c; by rewrite <- Hd).
  assert (getVideoTagProps (instance (life us w)) = getVideoTagProps (fresh p c))
    as Hsame by (by apply getVideoTagProps_fields).
  split; [done|]. split; [done|]. split; [done|].
  unfold render. by rewrite Hsame, Hp.
Qed.

Lemma createdIn_app (p : nat) (cs later made : list call) :
  createdIn p cs later → createdIn p (cs ++ made) (later ++ made).
Proof.
  intros (history & node & o & -> & ->). exists history, node, o.
  split; [|done]. by rewrite <- (assoc_L (++)).
Qed.

(** Calls other than disposals may be added. *)
Lemma playersCreated_app (i i' : Video) (cs made : list call) :
  player i' = player i →
  (∀ p, DisposeCall p ∉ made) →
  playersCreated {| instance := i; calls := cs |} →
  playersCreated {| instance := i'; calls := cs ++ made |}.
Proof.
  intros Hp Hmade [Hheld Hdisposed]. cbn in *. split; cbn.
  - intros p Hpl. rewrite Hp in Hpl. destruct (Hheld p Hpl) as [later Hc].
    exists (later ++ made). by apply createdIn_app.
  - intros p [Hin|Hin]%elem_of_app; [|by destruct (Hmade p)].
    destruct (Hdisposed p Hin) as (later & Hc & Hl).
    exists (later ++ made). split; [by apply createdIn_app|].
    apply elem_of_app. by left.
Qed.

Lemma step_playersCreated (w : World) (l : lifecycle) :
  playersCreated w → playersCreated (step w l).
Proof.
  destruct w as [i cs]. intros Hinv. destruct l as [node| | |]; cbn [step].
  - unfold setVideoNode. cbn [instance calls].
    rewrite <- (right_id_L [] (++) cs).
    apply (playersCreated_app i); [done| |done].
    intros p Hin. by apply elem_of_nil in Hin.
  - unfold componentDidMount. cbn [instance calls].
    destruct Hinv as [_ Hdisposed]. cbn in Hdisposed. split; cbn.
    + intros p [= <-]. exists []. by eexists _, _, _.
    + intros p [Hin|Hin]%elem_of_app.
      * destruct (Hdisposed p Hin) as (later & Hc & Hl). eexists. split.
        -- by apply createdIn_app.
        -- apply elem_of_app. by left.
      * apply list_elem_of_singleton in Hin. discriminate.
  - unfold componentDidUpdate, reloadVideo. cbn [instance calls].
    destruct (element i) as [n|]; [|done].
    apply (playersCreated_app i); [done| |done].
    intros p Hin. apply list_elem_of_singleton in Hin. discriminate.
  - unfold componentWillUnmount. cbn [instance calls].
    destruct (player i) as [p|] eqn:Hpl; [|done].
    destruct Hinv as [Hheld Hdisposed]. cbn in Hheld, Hdisposed. split; cbn.
    + intros q Hq. destruct (Hheld q Hq) as [later Hc].
      eexists. by apply createdIn_app.
    + intros q [Hin|Hin]%elem_of_app.
      * destruct (Hdisposed q Hin) as (later & Hc & Hl). eexists. split.
        -- by apply createdIn_app.
        -- apply elem_of_app. by left.
      * apply list_elem_of_singleton in Hin. injection Hin as ->.
        destruct (Hheld p Hpl) as [later Hc]. eexists. split.
        -- by apply createdIn_app.
        -- apply elem_of_app. right. by apply list_elem_of_singleton.
Qed.

Lemma run_playersCreated (ls : list lifecycle) (w : World) :
  playersCreated w → playersCreated (run ls w).
Proof.
  revert w. induction ls as [|l ls IH]; intros w Hinv; [done|].
  unfold run in *. cbn [foldl]. by apply IH, step_playersCreated.
Qed.

(** X16: only a player that video.js has returned is ever disposed of.  In
    the life of an element that starts with no player and no call made,
    every call of [dispose] is on the player returned by a call of [videojs]
    made before it. *)
Theorem dispose_only_created (ls : list lifecycle) (w : World) (p : nat) :
  player (instance w) = None →
  calls w = [] →
  DisposeCall p ∈ calls (run ls w) →
  ∃ later, createdIn p (calls (run ls w)) later ∧ DisposeCall p ∈ later.
Proof.
  intros Hp Hc Hin.
  assert (playersCreated w) as Hinv.
  { split.
    - intros q Hq. rewrite Hp in Hq. discriminate.
    - intros q Hq. rewrite Hc in Hq. by apply elem_of_nil in Hq. }
  by apply (run_playersCreated ls w Hinv).
Qed.

Lemma step_no_load (w : World) (l : lifecycle) :
  element (instance w) = None →
  ∃ made, calls (step w l) = calls w ++ made ∧ ∀ n, LoadCall n ∉ made.
Proof.
  intros He. destruct l as [node| | |]; cbn [step].
  - exists []. split; [by rewrite (right_id_L [] (++))|].
    intros n Hin. by apply elem_of_nil in Hin.
  - unfold componentDidMount. cbn [calls]. eexists. split; [done|].
    intros n Hin. apply list_elem_of_singleton in Hin. discriminate.
  - unfold componentDidUpdate, reloadVideo. rewrite He.
    exists []. split; [by rewrite (right_id_L [] (++))|].
    intros n Hin. by apply elem_of_nil in Hin.
  - unfold componentWillUnmount. destruct (player (instance w)) as [p|]; cbn [calls].
    + eexists. split; [done|].
      intros n Hin. apply list_elem_of_singleton in Hin. discriminate.
    + exists []. split; [by rewrite (right_id_L [] (++))|].
      intros n Hin. by apply elem_of_nil in Hin.
Qed.

(** X17: [reloadVideo] loads the video only through [this.element], which
    no step of the lifecycle sets: for an element whose [this.element] holds
    no node, no sequence of steps calls [load]. *)
Theorem no_load_without_element (ls : list lifecycle) (w : World) :
  element (instance w) = None →
  ∃ made, calls (run ls w) = calls w ++ made ∧ ∀ n, LoadCall n ∉ made.
Proof.
  revert w. induction ls as [|l ls IH]; intros w He.
  - exists []. split; [by rewrite (right_id_L [] (++))|].
    intros n Hin. by apply elem_of_nil in Hin.
  - unfold run in *. cbn [foldl].
    destruct (step_no_load w l He) as (made & Hm & Hno).
    destruct (IH (step w l)) as (made' & Hm' & Hno').
    { destruct (step_instance w l) as (_ & _ & He' & _). by rewrite He'. }
    exists (made ++ made'). split; [by rewrite Hm', Hm, (assoc_L (++))|].
    intros n [Hin|Hin]%elem_of_app; [by apply (Hno n) | by apply (Hno' n)].
Qed.

End LifecycleFacts.

(** ** The further theorems at work on the examples *)

Lemma generateSources_other_overrides_witness :
  let overrides : gmap string options := {[ "mp4" := {[ "quality" := VNum 70 ]} ]} in
  let overrides' : gmap string options :=
    <["webm" := {[ "quality" := VNum 10 ]}]> overrides in
  (∀ t, t ∈ ["mp4"; "ogv"] → overrides !! t = overrides' !! t)
  ∧ generateSources (H := Fake.services) ∅ (VStr "sample") ∅ overrides ["mp4"; "ogv"]
    = generateSources (H := Fake.services) ∅ (VStr "sample") ∅ overrides' ["mp4"; "ogv"].
Proof.
  intros overrides overrides'.
  assert (∀ t, t ∈ ["mp4"; "ogv"] → overrides !! t = overrides' !! t) as Hagree.
  { intros t Ht. unfold overrides'. rewrite lookup_insert_ne; [done|].
    intros <-. apply elem_of_cons in Ht as [?|Ht]; [discriminate|].
    apply list_elem_of_singleton in Ht. discriminate. }
  split; [exact Hagree|].
  exact (generateSources_other_overrides (H := Fake.services) ∅ (VStr "sample") ∅
           overrides overrides' ["mp4"; "ogv"] Hagree).
Defined.

Lemma generateSources_keys_NoDup_witness :
  NoDup ["mp4"; "ogv"]
  ∧ ¬ ("ogv" ∈ ["mp4"; "ogv"] ∧ "ogg" ∈ ["mp4"; "ogv"])
  ∧ NoDup (key <$> generateSources (H := Fake.services) ∅ (VStr "sample") ∅ ∅
                     ["mp4"; "ogv"]).
Proof.
  assert (NoDup ["mp4"; "ogv"]) as Hnd.
  { apply NoDup_cons. split; [|apply NoDup_singleton].
    intros Hin%list_elem_of_singleton. discriminate. }
  assert (¬ ("ogv" ∈ ["mp4"; "ogv"] ∧ "ogg" ∈ ["mp4"; "ogv"])) as Hogg.
  { intros [_ Hin]. apply elem_of_cons in Hin as [?|Hin]; [discriminate|].
    apply list_elem_of_singleton in Hin. discriminate. }
  split; [exact Hnd|]. split; [exact Hogg|].
  exact (generateSources_keys_NoDup (H := Fake.services) ∅ (VStr "sample") ∅ ∅
           ["mp4"; "ogv"] Hnd Hogg).
Defined.

Lemma generateSources_ogv_ogg_collide_witness :
  sourceTypes (props Fake.oggVideo) = TypeList ["ogv"; "ogg"]
  ∧ ∃ s s', generateSources (H := Fake.services) ∅ (VStr "sample") ∅ ∅
              ["ogv"; "ogg"] !! 0 = Some s
          ∧ generateSources (H := Fake.services) ∅ (VStr "sample") ∅ ∅
              ["ogv"; "ogg"] !! 1 = Some s'
          ∧ key s = key s' ∧ type s = "video/ogg" ∧ type s' = "video/ogg".
Proof.
  split; [reflexivity|].
  apply (generateSources_ogv_ogg_collide (H := Fake.services) ∅ (VStr "sample") ∅ ∅
           ["ogv"; "ogg"] 0 1); reflexivity.
Defined.

Lemma single_and_list_resolve_alike_witness :
  sourceTypes (props Fake.mp4Video) = TypeScalar "mp4"
  ∧ sourceTypes (props Fake.listVideo) = TypeList ["mp4"; "ogv"]
  ∧ ∃ l s, sources (getVideoTagProps (H := Fake.services) Fake.listVideo) = Some l
         ∧ l !! 0 = Some s
         ∧ tagAttributes (getVideoTagProps (H := Fake.services) Fake.mp4Video) !! "src"
             = Some (VStr (src s)).
Proof.
  split; [reflexivity|]. split; [reflexivity|].
  apply (single_and_list_resolve_alike (H := Fake.services)
           Fake.mp4Video Fake.listVideo "mp4" ["mp4"; "ogv"] 0); reflexivity.
Defined.

Lemma sourceTypes_only_src_witness :
  context Fake.mp4Video = context Fake.listVideo
  ∧ rest (props Fake.mp4Video) = rest (props Fake.listVideo)
  ∧ tagAttributes (getVideoTagProps (H := Fake.services) Fake.mp4Video) !! "width"
    = tagAttributes (getVideoTagProps (H := Fake.services) Fake.listVideo) !! "width".
Proof.
  split; [reflexivity|]. split; [reflexivity|].
  apply (sourceTypes_only_src (H := Fake.services) Fake.mp4Video Fake.listVideo "width");
    [reflexivity|reflexivity|reflexivity|discriminate].
Defined.

Lemma innerRef_fallback_unused_witness :
  rest (props Fake.listVideoWithRef) !! "innerRef" = Some (VStr "ref")
  ∧ rest (props Fake.listVideo) !! "innerRef" = None
  ∧ getVideoTagProps (H := Fake.services) Fake.listVideoWithRef
    = getVideoTagProps (H := Fake.services) Fake.listVideo.
Proof.
  split; [by vm_compute|]. split; [by vm_compute|].
  apply (innerRef_fallback_unused (H := Fake.services)
           Fake.listVideoWithRef Fake.listVideo); [|reflexivity|reflexivity].
  intros k Hi Hf. unfold getMergedProps, Fake.listVideoWithRef, Fake.listVideo.
  cbn [rest props context]. rewrite !lookup_union.
  by rewrite !lookup_insert_ne by done.
Defined.

Lemma context_overrides_unused_witness :
  context Fake.overrideVideoInContext ≠ context Fake.overrideVideo
  ∧ getVideoTagProps (H := Fake.services) Fake.overrideVideoInContext
    = getVideoTagProps (H := Fake.services) Fake.overrideVideo.
Proof.
  split; [discriminate|].
  apply (context_overrides_unused (H := Fake.services)
           Fake.overrideVideoInContext Fake.overrideVideo);
    [reflexivity|reflexivity|discriminate].
Defined.

Lemma written_sourceTypes_used_witness :
  let written := {| cfg_sourceTypes := Some (TypeScalar "mp4");
                    cfg_sourceTransformation := None;
                    cfg_rest := {[ "publicId" := VStr "sample" ]} |} in
  let ctx := {| cfg_sourceTypes := Some (TypeList ["webm"; "ogv"]);
                cfg_sourceTransformation := None; cfg_rest := ∅ |} in
  let this := {| context := ctx;
                 props := resolveDefaultProps (H := Fake.services) written;
                 element := None; videoNode := None; player := None |} in
  sourceTypes (getMergedProps this) = TypeScalar "mp4"
  ∧ (sources (getVideoTagProps (H := Fake.services) this) = None
     ↔ ∃ t, TypeScalar "mp4" = TypeScalar t).
Proof.
  intros written ctx.
  apply (written_sourceTypes_used (H := Fake.services) ctx written
           (TypeScalar "mp4") None None None).
  reflexivity.
Defined.

Lemma inplace_generateVideoUrl_twice_witness :
  let table : gmap string InPlace.loc := {[ "mp4" := 1 ]} in
  let child : options := {[ "width" := VNum 300 ]} in
  ∃ u h1 h2,
    InPlace.generateVideoUrl (H := Fake.services) ∅ (VStr "sample") 2 0 "ogv"
      Fake.store = Some (u, h1)
    ∧ InPlace.generateVideoUrl (H := Fake.services) ∅ (VStr "sample") 2 0 "mp4" h1
      = Some (generateVideoUrl (H := Fake.services) ∅ (VStr "sample") child
                (InPlace.tableContents Fake.store table) "mp4", h2)
    ∧ ∀ (l : nat) c, Fake.store !! l = Some c → h2 !! l = Some c.
Proof.
  intros table child.
  apply (inplace_generateVideoUrl_twice (H := Fake.services) Fake.store ∅
           (VStr "sample") 2 0 "ogv" "mp4" child table); [reflexivity|reflexivity|].
  intros k l Hk. apply lookup_singleton_Some in Hk as [_ <-].
  eexists. reflexivity.
Defined.

Lemma inplace_generateSources_frame_witness :
  let table : gmap string InPlace.loc := {[ "mp4" := 1 ]} in
  let child : options := {[ "width" := VNum 300 ]} in
  ∃ created,
    InPlace.generateSources (H := Fake.services) ∅ (VStr "sample") 2 0
      ["mp4"; "ogv"] Fake.store
    = Some (generateSources (H := Fake.services) ∅ (VStr "sample") child
              (InPlace.tableContents Fake.store table) ["mp4"; "ogv"],
            Fake.store ++ created)
    ∧ ∀ (l : nat) c, Fake.store !! l = Some c → (Fake.store ++ created) !! l = Some c.
Proof.
  intros table child.
  apply (inplace_generateSources_frame (H := Fake.services) ["mp4"; "ogv"] Fake.store
           ∅ (VStr "sample") 2 0 child table); [reflexivity|reflexivity|].
  intros k l Hk. apply lookup_singleton_Some in Hk as [_ <-].
  eexists. reflexivity.
Defined.

Lemma dispose_only_created_witness :
  let ls := [RefCallback (Some 1); DidMount; DidUpdate; WillUnmount] in
  DisposeCall 0 ∈ calls (run (H := Fake.services) (H0 := Fake.videoJs) ls Fake.listWorld)
  ∧ ∃ later,
      createdIn (H0 := Fake.videoJs) 0
        (calls (run (H := Fake.services) (H0 := Fake.videoJs) ls Fake.listWorld)) later
      ∧ DisposeCall 0 ∈ later.
Proof.
  intros ls.
  assert (DisposeCall 0
            ∈ calls (run (H := Fake.services) (H0 := Fake.videoJs) ls Fake.listWorld))
    as Hin.
  { unfold ls, run. cbn [foldl step].
    unfold componentWillUnmount, componentDidUpdate, reloadVideo, componentDidMount,
      setVideoNode.
    cbn [instance calls player element Fake.listWorld Fake.listVideo videojs
         Fake.videoJs length app].
    apply list_elem_of_further, list_elem_of_here. }
  split; [exact Hin|].
  exact (dispose_only_created (H := Fake.services) (H0 := Fake.videoJs)
           ls Fake.listWorld 0 eq_refl eq_refl Hin).
Defined.

Lemma no_load_without_element_witness :
  let ls := [RefCallback (Some 1); DidMount; DidUpdate; DidUpdate; WillUnmount] in
  element (instance Fake.listWorld) = None
  ∧ ∃ made,
      calls (run (H := Fake.services) (H0 := Fake.videoJs) ls Fake.listWorld)
        = calls Fake.listWorld ++ made
      ∧ ∀ n, LoadCall n ∉ made.
Proof.
  intros ls. split; [reflexivity|].
  apply (no_load_without_element (H := Fake.services) (H0 := Fake.videoJs)
           ls Fake.listWorld).
  reflexivity.
Defined.

(** A [className] of the caller reaches the tag attributes and is replaced
    in the rendered element. *)
Example render_className_replaced :
  tagAttributes (getVideoTagProps (H := Fake.services) Fake.classVideo) !! "className"
    = Some (VStr "mine")
  ∧ video_props (div_video (render (H := Fake.services) Fake.classVideo)) !! "className"
    = Some (AttrValue (VStr "video-js")).
Proof. split; by vm_compute. Qed.

(** ** The derivation on a store *)

Section InPlaceDerivation.
Context `{Services}.

Lemma inplace_generateSources_run (sourceTypes : list string)
    (h : InPlace.heap) (cld : Cld) (publicId : value)
    (childTransformations sourceTransformations : InPlace.loc)
    (child : options) (table : gmap string InPlace.loc) :
  h !! childTransformations = Some (InPlace.CObj child) →
  h !! sourceTransformations = Some (InPlace.CTable table) →
  (∀ k l, table !! k = Some l → is_Some (InPlace.objectAt h l)) →
  ∃ created,
    InPlace.generateSources cld publicId childTransformations
      sourceTransformations sourceTypes h
    = Some (generateSources cld publicId child
              (InPlace.tableContents h table) sourceTypes, h ++ created).
Proof.
  revert h. induction sourceTypes as [|t ts IH]; intros h Hct Hst Htable.
  - exists []. by rewrite (right_id_L [] (++)).
  - destruct (inplace_generateVideoUrl_run h cld publicId childTransformations
                sourceTransformations t child table Hct Hst Htable)
      as (created & _ & Hrun & _ & _).
    destruct (arguments_app h created _ _ child table Hct Hst Htable)
      as (Hct1 & Hst1 & Htable1).
    destruct (IH (h ++ created) Hct1 Hst1 Htable1) as (created' & Hrest).
    rewrite tableContents_app in Hrest by done.
    exists (created ++ created').
    unfold InPlace.generateSources in *. cbn [InPlace.mapM generateSources map].
    unfold InPlace.bind at 1. unfold InPlace.bind at 1. rewrite Hrun.
    unfold InPlace.ret at 1. unfold InPlace.bind at 1. rewrite Hrest.
    unfold InPlace.ret. by rewrite (assoc_L (++)).
Qed.

Lemma tableAt_app (h created : InPlace.heap) (l : option InPlace.loc)
    (t : option (gmap string options)) :
  InPlace.tableAt h l t → InPlace.tableAt (h ++ created) l t.
Proof.
  destruct l as [l|], t as [t|]; cbn; try done.
  intros (table & Hl & Hwf & Hc). exists table. split; [|split].
  - rewrite lookup_app_l by (by eapply lookup_lt_Some). done.
  - intros k l' Hk. rewrite objectAt_app; by eapply Hwf.
  - by rewrite tableContents_app.
Qed.

Lemma represents_app (h created : InPlace.heap) (this : InPlace.Instance) (v : Video) :
  InPlace.represents h this v → InPlace.represents (h ++ created) this v.
Proof.
  intros (Hc & Hp & Hty & Hpt & Hct).
  split; [by rewrite objectAt_app by (by eexists)|].
  split; [by rewrite objectAt_app by (by eexists)|].
  split; [done|]. split; by apply tableAt_app.
Qed.

Lemma tableAt_union (h : InPlace.heap) (l l' : option InPlace.loc)
    (t t' : option (gmap string options)) :
  InPlace.tableAt h l t → InPlace.tableAt h l' t' →
  InPlace.tableAt h (l ∪ l') (t ∪ t').
Proof. destruct l, t, l', t'; cbn; done. Qed.

(** The default of [sourceTransformation = {}]. *)
Lemma sourceTransformation_default (h : InPlace.heap) (l : option InPlace.loc)
    (t : option (gmap string options)) :
  InPlace.tableAt h l t →
  ∃ st made table,
    match l with
    | Some l => InPlace.ret l
    | None => InPlace.alloc (InPlace.CTable ∅)
    end h = Some (st, h ++ made)
    ∧ (h ++ made) !! st = Some (InPlace.CTable table)
    ∧ (∀ k l', table !! k = Some l' → is_Some (InPlace.objectAt (h ++ made) l'))
    ∧ InPlace.tableContents (h ++ made) table = default ∅ t.
Proof.
  destruct l as [l|], t as [t|]; cbn; try done.
  - intros (table & Hl & Hwf & Hc). exists l, [], table.
    rewrite (right_id_L [] (++)). done.
  - intros _. exists (length h), [InPlace.CTable ∅], ∅.
    split; [done|]. split; [by apply list_lookup_middle|].
    split; [intros k l' Hk; by rewrite lookup_empty in Hk|].
    unfold InPlace.tableContents. by rewrite omap_empty.
Qed.

Lemma objectAt_Some (h : InPlace.heap) (l : InPlace.loc) (o : options) :
  InPlace.objectAt h l = Some o → h !! l = Some (InPlace.CObj o).
Proof.
  unfold InPlace.objectAt. destruct (h !! l) as [[o'|t]|]; congruence.
Qed.

Lemma inplace_getMergedProps (h : InPlace.heap) (this : InPlace.Instance) (v : Video) :
  InPlace.represents h this v →
  InPlace.getMergedProps this h
  = Some ({| InPlace.m_sourceTypes := sourceTypes (props v);
             InPlace.m_sourceTransformation :=
               InPlace.p_sourceTransformation (InPlace.i_props this)
                 ∪ InPlace.c_sourceTransformation (InPlace.i_context this);
             InPlace.m_rest := rest (getMergedProps v) |}, h).
Proof.
  intros (Hc%objectAt_Some & Hp%objectAt_Some & Hty & _).
  unfold InPlace.getMergedProps, InPlace.bind, InPlace.readObj, InPlace.ret.
  by rewrite Hc, Hp, Hty.
Qed.

(** One call of the derivation on a store: it returns what the derivation
    returns on the contents, in a store that extends the one before. *)
Lemma inplace_getVideoTagProps_run (h : InPlace.heap) (this : InPlace.Instance)
    (v : Video) :
  InPlace.represents h this v →
  ∃ r created,
    InPlace.getVideoTagProps this h = Some (r, h ++ created)
    ∧ InPlace.r_sources r = sources (getVideoTagProps v)
    ∧ InPlace.objectAt (h ++ created) (InPlace.r_tagAttributes r)
      = Some (tagAttributes (getVideoTagProps v))
    ∧ length h ≤ InPlace.r_tagAttributes r.
Proof.
  intros Hrep.
  pose proof (inplace_getMergedProps h this v Hrep) as Hmerged.
  destruct Hrep as (_ & _ & _ & Hpt & Hct).
  pose proof (tableAt_union h _ _ _ _ Hpt Hct) as Htab.
  destruct (sourceTransformation_default h _ _ Htab)
    as (st & made & table & Hst & Hlook & Hwf & Hcont).
  unfold InPlace.getVideoTagProps. unfold InPlace.bind at 1. rewrite Hmerged.
  cbn [InPlace.m_rest InPlace.m_sourceTypes InPlace.m_sourceTransformation].
  cbv zeta. unfold InPlace.bind at 1. rewrite Hst.
  unfold InPlace.bind at 1. unfold InPlace.alloc at 1.
  unfold InPlace.bind at 1. unfold InPlace.alloc at 1.
  rewrite getVideoTagProps_unfold.
  fold (videoPublicId v). fold (videoExtracted v). fold (videoOptions v).
  fold (videoCld v). fold (videoReconciled v). fold (videoChildTransformations v).
  set (hm := h ++ made) in *.
  set (rec := InPlace.CObj (videoReconciled v)).
  set (child := InPlace.CObj (videoChildTransformations v)).
  set (h2 := (hm ++ [rec]) ++ [child]).
  assert (h2 = hm ++ [rec; child]) as Hh2 by (unfold h2; by rewrite <- (assoc_L (++))).
  assert (st < length hm) as Hstlt by (by eapply lookup_lt_Some).
  assert (h2 !! length (hm ++ [rec]) = Some child) as Hch
    by (by apply list_lookup_middle).
  assert (h2 !! st = Some (InPlace.CTable table)) as Hst2
    by (rewrite Hh2, lookup_app_l by done; done).
  assert (∀ k l', table !! k = Some l' → is_Some (InPlace.objectAt h2 l')) as Hwf2.
  { intros k l' Hk. rewrite Hh2, objectAt_app; by eapply Hwf. }
  assert (InPlace.tableContents h2 table = videoSourceTransformation v) as Hcont2.
  { rewrite Hh2, tableContents_app by done. by rewrite Hcont. }
  assert (h2 !! length hm = Some rec) as Hta.
  { rewrite Hh2. by apply list_lookup_middle. }
  destruct (sourceTypes (props v)) as [ts|t].
  - destruct (inplace_generateSources_run ts h2 (videoCld v) (videoPublicId v) _ _ _ _
                Hch Hst2 Hwf2) as (created & Hrun).
    unfold InPlace.bind, InPlace.ret. rewrite Hrun, Hcont2.
    eexists _, (made ++ [rec; child] ++ created).
    split; [rewrite Hh2; unfold hm; by rewrite <- !(assoc_L (++))|].
    split; [reflexivity|]. split.
    + cbn [InPlace.r_tagAttributes tagAttributes].
      replace (h ++ made ++ [rec; child] ++ created) with (h2 ++ created)
        by (rewrite Hh2; unfold hm; by rewrite <- !(assoc_L (++))).
      unfold InPlace.objectAt.
      rewrite lookup_app_l by (by eapply lookup_lt_Some). fold hm. by rewrite Hta.
    + cbn [InPlace.r_tagAttributes]. unfold hm. rewrite length_app. lia.
  - destruct (inplace_generateVideoUrl_run h2 (videoCld v) (videoPublicId v) _ _ t _ _
                Hch Hst2 Hwf2) as (created & merged & Hrun & _ & _).
    unfold InPlace.bind at 1. rewrite Hrun, Hcont2.
    fold (videoUrl v t).
    assert ((h2 ++ created) !! length hm = Some rec) as Hta'.
    { rewrite lookup_app_l by (by eapply lookup_lt_Some). done. }
    unfold InPlace.bind, InPlace.setProp, InPlace.ret. rewrite Hta'.
    assert (h2 ++ created = h ++ (made ++ [rec; child] ++ created)) as Hbig
      by (rewrite Hh2; unfold hm; by rewrite <- !(assoc_L (++))).
    assert (length hm = length h + length made) as Hlen
      by (unfold hm; by rewrite length_app).
    unfold rec at 1. cbv beta iota.
    eexists _, _.
    split; [rewrite Hbig, insert_app_r_alt by lia; reflexivity|].
    split; [reflexivity|]. split.
    + cbn [InPlace.r_tagAttributes tagAttributes].
      rewrite <- insert_app_r_alt by lia. rewrite <- Hbig.
      unfold InPlace.objectAt.
      rewrite list_lookup_insert_eq by (by eapply lookup_lt_Some). done.
    + cbn [InPlace.r_tagAttributes]. lia.
Qed.

(** C8: the derivation keeps nothing from one call to the next.  With the
    objects of the instance in a store and every write of the body carried
    out in place, a second call, on the store the first call left, returns
    the same sources and tag attributes with the same contents as the first,
    in an object of its own; no object that was in the store before is
    written, so the instance still has the same context and props.  The
    collaborators are taken as functions of their arguments. *)
Theorem inplace_getVideoTagProps_twice (h : InPlace.heap) (this : InPlace.Instance)
    (v : Video) :
  InPlace.represents h this v →
  ∃ r1 r2 h1 h2,
    InPlace.getVideoTagProps this h = Some (r1, h1)
    ∧ InPlace.getVideoTagProps this h1 = Some (r2, h2)
    ∧ InPlace.r_sources r1 = InPlace.r_sources r2
    ∧ InPlace.objectAt h2 (InPlace.r_tagAttributes r1)
      = InPlace.objectAt h2 (InPlace.r_tagAttributes r2)
    ∧ InPlace.r_sources r2 = sources (getVideoTagProps v)
    ∧ InPlace.objectAt h2 (InPlace.r_tagAttributes r2)
      = Some (tagAttributes (getVideoTagProps v))
    ∧ InPlace.r_tagAttributes r1 ≠ InPlace.r_tagAttributes r2
    ∧ (∀ l c, h !! l = Some c → h2 !! l = Some c)
    ∧ InPlace.represents h2 this v.
Proof.
  intros Hrep.
  destruct (inplace_getVideoTagProps_run h this v Hrep)
    as (r1 & created1 & Hrun1 & Hsrc1 & Hattr1 & Hfresh1).
  pose proof (represents_app h created1 this v Hrep) as Hrep1.
  destruct (inplace_getVideoTagProps_run (h ++ created1) this v Hrep1)
    as (r2 & created2 & Hrun2 & Hsrc2 & Hattr2 & Hfresh2).
  assert (InPlace.r_tagAttributes r1 < length (h ++ created1)) as Hlt.
  { apply objectAt_Some in Hattr1. by eapply lookup_lt_Some. }
  exists r1, r2, (h ++ created1), ((h ++ created1) ++ created2).
  split; [done|]. split; [done|]. split; [by rewrite Hsrc1, Hsrc2|].
  split; [by rewrite objectAt_app, Hattr1, Hattr2 by (by rewrite Hattr1)|].
  split; [done|]. split; [done|]. split; [lia|]. split.
  - intros l c Hl. rewrite <- (assoc_L (++)).
    rewrite lookup_app_l by (by eapply lookup_lt_Some). done.
  - by apply represents_app.
Qed.

End InPlaceDerivation.

Lemma inplace_getVideoTagProps_twice_witness :
  InPlace.represents Fake.videoStore Fake.videoInstance Fake.overrideVideoInContext
  ∧ ∃ r1 r2 h1 h2,
      InPlace.getVideoTagProps (H := Fake.services) Fake.videoInstance Fake.videoStore
        = Some (r1, h1)
      ∧ InPlace.getVideoTagProps (H := Fake.services) Fake.videoInstance h1
        = Some (r2, h2)
      ∧ InPlace.r_sources r1 = InPlace.r_sources r2
      ∧ InPlace.objectAt h2 (InPlace.r_tagAttributes r1)
        = InPlace.objectAt h2 (InPlace.r_tagAttributes r2)
      ∧ InPlace.r_sources r2
        = sources (getVideoTagProps (H := Fake.services) Fake.overrideVideoInContext)
      ∧ InPlace.objectAt h2 (InPlace.r_tagAttributes r2)
        = Some (tagAttributes
                  (getVideoTagProps (H := Fake.services) Fake.overrideVideoInContext))
      ∧ InPlace.r_tagAttributes r1 ≠ InPlace.r_tagAttributes r2
      ∧ (∀ (l : nat) c, Fake.videoStore !! l = Some c → h2 !! l = Some c)
      ∧ InPlace.represents h2 Fake.videoInstance Fake.overrideVideoInContext.
Proof.
  assert (InPlace.represents Fake.videoStore Fake.videoInstance
            Fake.overrideVideoInContext) as Hrep.
  { split; [reflexivity|]. split; [reflexivity|]. split; [reflexivity|]. split.
    - exists {[ "mp4" := 3 ]}. split; [reflexivity|]. split; [|by vm_compute].
      intros k l Hk. apply lookup_singleton_Some in Hk as [_ <-].
      eexists. reflexivity.
    - exists {[ "ogv" := 5 ]}. split; [reflexivity|]. split; [|by vm_compute].
      intros k l Hk. apply lookup_singleton_Some in Hk as [_ <-].
      eexists. reflexivity. }
  split; [exact Hrep|].
  exact (inplace_getVideoTagProps_twice (H := Fake.services) Fake.videoStore
           Fake.videoInstance Fake.overrideVideoInContext Hrep).
Defined.

(** [listVideo] is mounted, React then delivers the props of [mp4Video], and
    the element is updated: the derivation is the one of the new props. *)
Example derivation_after_new_props :
  let w := life (H := Fake.services) (H0 := Fake.videoJs)
             [Method (RefCallback (Some 1)); Method DidMount;
              Receive (props Fake.mp4Video) Fake.emptyContext; Method DidUpdate]
             Fake.listWorld in
  player (instance w) = Some 0
  ∧ sources (getVideoTagProps (H := Fake.services) (instance w)) = None
  ∧ tagAttributes (getVideoTagProps (H := Fake.services) (instance w)) !! "src"
    = Some (VStr "https://res.cloudinary.com/demo/video/upload/sample.mp4").
Proof. cbv zeta. split; [by vm_compute|]. split; by vm_compute. Qed.
